(** * cdrift-evaluation: the multi-window change-point aggregator, the result
    buffer, the batch executor and the task builder of
    [testAll_reproducibility.py], embedded as Rocq functions.

    Python integers are [Z]; Python dicts whose iteration order is observable
    are association lists in insertion order; dicts used only as keyword
    arguments are [gmap]s; Python sets are [gset]s; lists of mutable objects
    are lists updated by index. *)

From Stdlib Require Import ZArith QArith Qround Lia.
From stdpp Require Import gmap strings list sorting.

(** ** Python's stable [list.sort] *)

(** [list.sort(key=...)] is stable.  [insert_by le x l] puts [x] in front of
    the first element that is not smaller, so that among equal keys the
    original order is kept when the list is rebuilt from the right. *)
Fixpoint insert_by {A} (le : A → A → bool) (x : A) (l : list A) : list A :=
  match l with
  | [] => [x]
  | y :: l' => if le x y then x :: l else y :: insert_by le x l'
  end.

Definition sort_by {A} (le : A → A → bool) (l : list A) : list A :=
  foldr (insert_by le) [] l.

Module Aggregator.

(** One candidate record, the dict
    [{"cp": .., "window_size": .., "support": .., "supporting_windows": ..}]. *)
Record Rec := mkRec {
  cp : Z;
  window_size : Z;
  support : Z;
  supporting_windows : gset Z
}.

(** Step 1 of [aggregate_change_points_by_window]: one record per
    (window size, change point) pair, in the iteration order of the dict. *)
Definition flatten_records (cp_all_window_sizes : list (Z * list Z)) : list Rec :=
  '(ws, cp_list) ← cp_all_window_sizes;
  (λ c, mkRec c ws 1 {[ws]}) <$> cp_list.

(** The sort key [(-x["window_size"], x["cp"])], compared as Python compares
    tuples. *)
Definition key_le (a b : Rec) : bool :=
  (- window_size a <? - window_size b)%Z
  || ((- window_size a =? - window_size b)%Z && (cp a <=? cp b)%Z).

(** [dist <= rec_a["window_size"] * alpha].  [alpha] is a Python float; the
    product is taken in exact rational arithmetic, which is what the float
    product gives whenever it is representable (always for [alpha = 1.0] and
    window sizes below 2^53). *)
Definition within (alpha : Q) (dist ws : Z) : bool :=
  Qle_bool (inject_Z dist) (inject_Z ws * alpha).

(** The inner [for j in range(i + 1, len(records))] loop: the merge
    candidates of [rec_a], as pairs of the distance and the index of [rec_b]
    in [records] (the index stands for the reference to the dict object). *)
Definition candidate (alpha : Q) (rec_a : Rec) (records : list Rec) (j : nat)
  : option (Z * nat) :=
  rec_b ← records !! j;
  if (window_size rec_b >=? window_size rec_a)%Z then None
  else
    let dist := Z.abs (cp rec_a - cp rec_b) in
    if within alpha dist (window_size rec_a) then Some (dist, j) else None.

Definition candidates (alpha : Q) (rec_a : Rec) (records : list Rec) (i : nat)
  : list (Z * nat) :=
  omap (candidate alpha rec_a records) (seq (S i) (length records - S i)).

(** [min(candidates, key=lambda x: x[0])]: the first element of least
    distance. *)
Definition closest (cands : list (Z * nat)) : option (Z * nat) :=
  match cands with
  | [] => None
  | c :: rest =>
      Some (foldl (λ best x, if (x.1 <? best.1)%Z then x else best) c rest)
  end.

(** [closest["support"] += rec_a["support"]] and
    [closest["supporting_windows"] |= rec_a["supporting_windows"]]. *)
Definition absorb (rec_a closest_rec : Rec) : Rec :=
  mkRec (cp closest_rec) (window_size closest_rec)
        (support closest_rec + support rec_a)
        (supporting_windows closest_rec ∪ supporting_windows rec_a).

(** One iteration of [for i, rec_a in enumerate(records)].  The state is the
    list [records] (whose dicts are mutated in place) and [merged_records],
    kept as the list of indices of the records appended so far, since the
    Python list holds references to the same dict objects. *)
Definition merge_step (alpha : Q) (st : list Rec * list nat) (i : nat)
  : list Rec * list nat :=
  match st.1 !! i with
  | None => st
  | Some rec_a =>
      match closest (candidates alpha rec_a st.1 i) with
      | Some (_, j) => (alter (absorb rec_a) j st.1, st.2)
      | None => (st.1, st.2 ++ [i])
      end
  end.

Definition merge_loop (alpha : Q) (records : list Rec) : list Rec * list nat :=
  foldl (merge_step alpha) (records, []) (seq 0 (length records)).

(** The part of a pandas DataFrame the two functions use: the column names
    and the rows. *)
Record AggFrame := mkAggFrame {
  agg_columns : list string;
  agg_rows : list Rec
}.

Definition agg_column_names : list string :=
  ["cp"; "window_size"; "support"; "supporting_windows"]%string.

(** [pd.DataFrame(merged_records)]: a list of dicts gives their keys as
    columns; the empty list gives a frame with no columns. *)
Definition DataFrame_of_records (l : list Rec) : AggFrame :=
  mkAggFrame (match l with [] => [] | _ => agg_column_names end) l.

(** [DataFrame.empty]: some axis has length zero. *)
Definition agg_empty (df : AggFrame) : bool :=
  bool_decide (agg_columns df = []) || bool_decide (agg_rows df = []).

(** [max_ws = max(cp_all_window_sizes.keys())] is computed on a non-empty
    dict of integers and never used; it is left out. *)
Definition aggregate_change_points_by_window
    (cp_all_window_sizes : list (Z * list Z)) (alpha : Q) : AggFrame :=
  match cp_all_window_sizes with
  | [] => mkAggFrame agg_column_names []
  | _ =>
      let records := sort_by key_le (flatten_records cp_all_window_sizes) in
      let st := merge_loop alpha records in
      DataFrame_of_records (omap (λ i, st.1 !! i) st.2)
  end.

Definition deduplicate_change_points_by_window
    (cp_all_window_sizes : list (Z * list Z)) (alpha : Q)
    (min_support_windows : Z) : list Z :=
  match cp_all_window_sizes with
  | [] => []
  | _ =>
      let aggregated_df := aggregate_change_points_by_window cp_all_window_sizes alpha in
      if agg_empty aggregated_df then []
      else
        cp <$> filter (λ r, (min_support_windows ≤ support r)%Z)
                      (agg_rows aggregated_df)
  end.

(** *** Vocabulary of the statements about the aggregator *)

(** The sum of the [support] column. *)
Definition sum_support (l : list Rec) : Z :=
  foldr (λ r acc, support r + acc)%Z 0%Z l.

(** The number of (window size, change point) pairs of the input dict. *)
Definition num_candidates (cp_all_window_sizes : list (Z * list Z)) : nat :=
  foldr (λ p acc, length p.2 + acc) 0 cp_all_window_sizes.

(** What every record keeps throughout the merge loop: its supporting
    windows are some of the window sizes [keys], and at least one. *)
Definition backed (keys : gset Z) (r : Rec) : Prop :=
  supporting_windows r ≠ ∅ ∧ supporting_windows r ⊆ keys.

(** The loop invariant at the start of iteration [i] of the merge loop over
    [n] records: the records already appended to [merged_records] and those
    not yet visited carry the whole support between them. *)
Definition conserves (keys : gset Z) (n : nat) (total : Z) (i : nat)
    (st : list Rec * list nat) : Prop :=
  length st.1 = n
  ∧ Forall (λ k, k < i) st.2
  ∧ (sum_support (omap (λ k, st.1 !! k) st.2) + sum_support (drop i st.1))%Z = total
  ∧ Forall (backed keys) st.1.

End Aggregator.

(** ** Python values and dicts *)

(** The values that occur in configurations, task arguments and result
    rows. *)
#[warnings="-register-all"] Inductive PyVal :=
| VInt (z : Z)
| VFloat (q : Q)
| VBool (b : bool)
| VStr (s : string)
| VList (l : list PyVal).

(** A dict with string keys, as the list of its items in insertion order. *)
Fixpoint dict_get {V} (d : list (string * V)) (k : string) : option V :=
  match d with
  | [] => None
  | (k', v) :: d' => if decide (k' = k) then Some v else dict_get d' k
  end.

(** [d[k] = v]: an existing key keeps its place, a new key goes last. *)
Fixpoint dict_set {V} (k : string) (v : V) (d : list (string * V)) : list (string * V) :=
  match d with
  | [] => [(k, v)]
  | (k', v') :: d' => if decide (k' = k) then (k, v) :: d' else (k', v') :: dict_set k v d'
  end.

(** The distinct elements of a list in the order of their first
    occurrence. *)
Definition first_seen (l : list string) : list string :=
  reverse (remove_dups (reverse l)).

Module ResultBuffer.

(** A cell of a DataFrame; [None] is the missing value (NaN). *)
Definition Cell := option PyVal.

(** A DataFrame: the column labels and the rows, each row with one cell per
    column. *)
Record DataFrame := mkDF {
  columns : list string;
  rows : list (list Cell)
}.

(** [DataFrame.empty]. *)
Definition df_empty (df : DataFrame) : bool :=
  bool_decide (columns df = []) || bool_decide (rows df = []).

(** The cell of [row] under the label [c], missing if there is no such
    column. *)
Fixpoint get_cell (cols : list string) (row : list Cell) (c : string) : Cell :=
  match cols, row with
  | k :: cols', v :: row' => if decide (k = c) then v else get_cell cols' row' c
  | _, _ => None
  end.

(** [pd.DataFrame(new_rows)] for a list of dicts: the columns are the keys
    in the order in which they are first seen, and a row has a missing cell
    where its dict has no such key. *)
Definition DataFrame_of_dicts (new_rows : list (list (string * PyVal))) : DataFrame :=
  let cols := first_seen (new_rows ≫= λ d, d.*1) in
  mkDF cols ((λ d, dict_get d <$> cols) <$> new_rows).

(** [df.reindex(columns=all_columns)] on a frame with distinct labels. *)
Definition reindex (all_columns : list string) (df : DataFrame) : DataFrame :=
  mkDF all_columns ((λ row, get_cell (columns df) row <$> all_columns) <$> rows df).

(** [pd.concat([df1, df2], ignore_index=True)] for two frames that were
    both reindexed to the same columns. *)
Definition concat (df1 df2 : DataFrame) : DataFrame :=
  mkDF (columns df1) (rows df1 ++ rows df2).

(** [sorted(set(xs).union(ys))]: the distinct labels in ascending order. *)
Definition sorted_union (xs ys : list string) : list string :=
  sort_by String.leb (remove_dups (xs ++ ys)).

Definition write_results_to_buffer
    (new_rows : list (list (string * PyVal))) (existing_df : DataFrame) : DataFrame :=
  let df_new := DataFrame_of_dicts new_rows in
  if df_empty df_new then existing_df
  else
    let all_columns := sorted_union (columns existing_df) (columns df_new) in
    let existing_df := reindex all_columns existing_df in
    let df_new := reindex all_columns df_new in
    concat existing_df df_new.



End ResultBuffer.

Module Executor.
Import ResultBuffer.

(** *** The results file *)

Inductive CsvLine :=
| Header (names : list string)
| Data (cells : list Cell).

(** [df.to_csv(results_file, index=False)]: the file is replaced by a header
    and the rows. *)
Definition to_csv (df : DataFrame) : list CsvLine :=
  Header (columns df) :: (Data <$> rows df).

(** [df.to_csv(results_file, index=False, mode='a', header=False)]. *)
Definition to_csv_append (file : list CsvLine) (df : DataFrame) : list CsvLine :=
  file ++ (Data <$> rows df).

(** [df.iloc[n:]]. *)
Definition iloc_from (n : nat) (df : DataFrame) : DataFrame :=
  mkDF (columns df) (drop n (rows df)).

(** *** Task functions and what the pool hands back *)

(** What a task function returns: [np.NaN] or a list of entries. *)
Inductive Returned :=
| RetNaN
| RetEntries (entries : list (list (string * PyVal))).

(** What a task does in its worker. *)
Inductive Outcome :=
| Raises
| Returns (v : Returned).

(** The outcome of a task that returns the list [e] of entries. *)
Definition ok (e : list (list (string * PyVal))) : Outcome := Returns (RetEntries e).

(** [testMartjushev_ADWIN].  [len_log] is [len(log)] of the imported log;
    [rest] is what the body after the guard does (the two detectors, the
    scores and the intermediate file are external). *)
Definition testMartjushev_ADWIN (rest : Outcome) (len_log : Z)
    (min_max_window_pair : Z * Z) : Outcome :=
  let '(min_window, max_window) := min_max_window_pair in
  if (len_log <=? min_window)%Z then Returns RetNaN else rest.

(** An object of the parent process: its identity and its value. *)
Record PyObject := mkObj {
  obj_id : nat;
  obj_value : Returned
}.

(** The float object bound to [np.NaN] in the parent process. *)
Definition np_NaN : PyObject := mkObj 0 RetNaN.

(** [a is b]: the same object. *)
Definition py_is (a b : PyObject) : bool := obj_id a =? obj_id b.

(** [Pool.imap] and [Pool.map] send a worker's return value to the parent
    pickled; the parent rebuilds it as a new object.  The [k]-th value
    received is the [k]-th object allocated after the module constants. *)
Definition received (k : nat) (v : Returned) : PyObject := mkObj (S k) v.

Inductive Exn :=
| TaskFault   (* the exception of a task, re-raised by the pool *)
| TypeError.  (* 'float' object is not iterable *)

(** *** [main] *)

(** The local variables of [main] and the content of
    [algorithm_results.csv]. *)
Record MainState := mkMain {
  results_df : DataFrame;
  results_file_columns : list string;
  counter : nat;
  next_write_index : nat;
  results_file : list CsvLine
}.

Definition write_every_x_iterations : nat := 100.

(** The body of [if counter % write_every_x_iterations == 0:]. *)
Definition periodic_write (st : MainState) : MainState :=
  if counter st mod write_every_x_iterations =? 0 then
    let new_rows := iloc_from (next_write_index st) (results_df st) in
    if df_empty new_rows then st
    else if bool_decide (results_file_columns st = columns (results_df st)) then
      mkMain (results_df st) (results_file_columns st) (counter st)
             (length (rows (results_df st)))
             (to_csv_append (results_file st) new_rows)
    else
      mkMain (results_df st) (columns (results_df st)) (counter st)
             (length (rows (results_df st)))
             (to_csv (results_df st))
  else st.

(** The loop [for result in tqdm(p.imap(callFunction, arguments))], on the
    outcomes of the tasks in the order of [arguments]; [k] counts the
    results received so far.  It ends with the state reached and the
    exception that left the loop, if any. *)
Fixpoint streaming_loop (k : nat) (st : MainState) (outcomes : list Outcome)
  : MainState * option Exn :=
  match outcomes with
  | [] => (st, None)
  | Raises :: _ => (st, Some TaskFault)
  | Returns v :: outcomes' =>
      let result := received k v in
      if py_is result np_NaN then streaming_loop (S k) st outcomes'
      else
        match obj_value result with
        | RetNaN => (st, Some TypeError)       (* [r for r in result] *)
        | RetEntries flattened =>
            let st1 :=
              mkMain (write_results_to_buffer flattened (results_df st))
                     (results_file_columns st) (S (counter st))
                     (next_write_index st) (results_file st) in
            streaming_loop (S k) (periodic_write st1) outcomes'
        end
  end.

(** [[res for function_return in results for res in function_return]]. *)
Fixpoint flatten_results (results : list PyObject)
  : option (list (list (string * PyVal))) :=
  match results with
  | [] => Some []
  | r :: results' =>
      match obj_value r with
      | RetNaN => None
      | RetEntries entries => app entries <$> flatten_results results'
      end
  end.

(** [p.map(callFunction, arguments)]: the return values of all tasks, or
    the exception of a task that raised. *)
Fixpoint pool_map (outcomes : list Outcome) : option (list Returned) :=
  match outcomes with
  | [] => Some []
  | Raises :: _ => None
  | Returns v :: outcomes' => cons v <$> pool_map outcomes'
  end.

(** The [else] branch: [p.map], the filter on [np.NaN], the flattening and
    one call of [write_results_to_buffer]. *)
Definition bulk (st : MainState) (outcomes : list Outcome) : MainState * option Exn :=
  match pool_map outcomes with
  | None => (st, Some TaskFault)
  | Some values =>
      let results := imap received values in
      let results := filter (λ r, py_is r np_NaN = false) results in
      match flatten_results results with
      | None => (st, Some TypeError)
      | Some flattened_results =>
          (mkMain (write_results_to_buffer flattened_results (results_df st))
                  (results_file_columns st) (counter st)
                  (next_write_index st) (results_file st), None)
      end
  end.

(** [main] from the [with Pool(...)] block on.  [old_file] is what
    [algorithm_results.csv] holds before the run.  An exception leaves the
    [with] block and [main]; otherwise the final write follows. *)
Definition main (DO_SINGLE_BAR : bool) (old_file : list CsvLine)
    (outcomes : list Outcome) : MainState * option Exn :=
  let st0 := mkMain (mkDF [] []) [] 0 0 old_file in
  let run := if DO_SINGLE_BAR then streaming_loop 0 st0 outcomes
             else bulk st0 outcomes in
  match run.2 with
  | Some e => run
  | None =>
      (mkMain (results_df run.1) (results_file_columns run.1) (counter run.1)
              (next_write_index run.1) (to_csv (results_df run.1)), None)
  end.

(** The table accumulated from the entries of the tasks, in task order. *)
Definition accumulated (entries : list (list (list (string * PyVal)))) : DataFrame :=
  foldl (λ df e, write_results_to_buffer e df) (mkDF [] []) entries.

End Executor.

Module TaskBuilder.

(** One entry of [config["approaches"]].  [enabled] and [meta_params] are
    read with [.get] and may be absent. *)
Record Approach := mkApproach {
  enabled : option bool;
  function : string;
  meta_params : option (list (string * PyVal));
  params : list (string * list PyVal)
}.

(** The configuration: [config["approaches"]] in the order of the file and
    the two entries of [config["meta-parameters"]] that are read. *)
Record Config := mkConfig {
  approaches : list (string * Approach);
  F1_LAG : PyVal;
  DO_SINGLE_BAR : bool
}.

(** A task: the name of the function and its keyword arguments. *)
Definition Task : Type := string * gmap string PyVal.

(** [dict(items)]: a later item replaces an earlier one of the same key. *)
Definition dict_of (items : list (string * PyVal)) : gmap string PyVal :=
  foldl (λ m kv, <[kv.1 := kv.2]> m) ∅ items.

(** [a | b]: the entries of [b] win. *)
Definition dict_or (a b : gmap string PyVal) : gmap string PyVal := b ∪ a.

(** [itertools.product] of the value lists: the last position varies
    fastest. *)
Fixpoint product (values : list (list PyVal)) : list (list PyVal) :=
  match values with
  | [] => [[]]
  | vs :: values' => v ← vs; rest ← product values'; [v :: rest]
  end.

(** [approach.get("enabled", True) == True]. *)
Definition is_enabled (a : Approach) : bool := default true (enabled a).

(** The dict [_args], keyed by the function name. *)
Definition enabled_args (config : Config)
  : list (string * (list (string * PyVal) * list (string * list PyVal))) :=
  foldl (λ d a,
           if is_enabled a
           then dict_set (function a) (default [] (meta_params a), params a) d
           else d)
        [] (approaches config).*2.

(** Unpacking the transposed items of [args] into [keys, values] needs at
    least one parameter;
    [permutations_dicts] is one dict per element of the product. *)
Definition permutations_dicts (args : list (string * list PyVal))
  : option (list (gmap string PyVal)) :=
  match args with
  | [] => None
  | _ => Some ((λ v, dict_of (zip args.*1 v)) <$> product args.*2)
  end.

(** The loop [for funcname, (meta_args, args) in _args.items()]. *)
Fixpoint family_arguments (is_test_run : bool)
    (_args : list (string * (list (string * PyVal) * list (string * list PyVal))))
  : option (list Task) :=
  match _args with
  | [] => Some []
  | (funcname, (meta_args, args)) :: _args' =>
      permutations_dicts ← permutations_dicts args;
      arguments ← family_arguments is_test_run _args';
      let permutations_dicts :=
        if is_test_run then take 1 permutations_dicts else permutations_dicts in
      Some (((λ permutation, (funcname, dict_or permutation (dict_of meta_args)))
               <$> permutations_dicts) ++ arguments)
  end.

(** The arguments that all functions take, for one log. *)
Definition meta_arg (config : Config) (log : string * list Z) : gmap string PyVal :=
  dict_of [("F1_LAG", F1_LAG config);
           ("filepath", VStr log.1);
           ("cp_locations", VList (VInt <$> log.2));
           ("show_progress_bar", VBool (negb (DO_SINGLE_BAR config)))]%string.

(** [d | {"position": idx}]. *)
Definition with_position (idx : nat) (t : Task) : Task :=
  (t.1, dict_or t.2 {["position"%string := VInt (Z.of_nat idx)]}).

(** [build_arguments_list].  [shuffle] is what [np.random.shuffle] does to
    the list in this run.  [None] is the [ValueError] of an enabled approach
    without parameters. *)
Definition build_arguments_list (shuffle : list Task → list Task)
    (config : Config) (logPaths_Changepoints : list (string * list Z))
    (is_test_run : bool) : option (list Task) :=
  arguments ← family_arguments is_test_run (enabled_args config);
  let logPaths_Changepoints :=
    if is_test_run then take 1 logPaths_Changepoints else logPaths_Changepoints in
  let meta_args := meta_arg config <$> logPaths_Changepoints in
  let arguments :=
    t ← arguments; meta_arg ← meta_args; [(t.1, dict_or t.2 meta_arg)] in
  let arguments := shuffle arguments in
  Some (imap with_position arguments).

(** *** Vocabulary of the statements about the task builder *)

(** The enabled approaches, in the order of the configuration. *)
Definition enabled_approaches (config : Config) : list Approach :=
  filter (λ a, is_enabled a = true) (approaches config).*2.

(** The keyword arguments of the task of approach [a] for the parameter
    combination [combo] and the log [log], before the position is added. *)
Definition task_of (config : Config) (a : Approach) (combo : list PyVal)
    (log : string * list Z) : Task :=
  (function a,
   dict_or (dict_or (dict_of (zip (params a).*1 combo))
                    (dict_of (default [] (meta_params a))))
           (meta_arg config log)).

(** One task per enabled approach, parameter combination of its grid and
    log. *)
Definition expected_tasks (config : Config) (logs : list (string * list Z)) : list Task :=
  a ← enabled_approaches config;
  combo ← product (params a).*2;
  log ← logs;
  [task_of config a combo log].

(** The same, with the first parameter combination of each approach and the
    first log only. *)
Definition expected_test_run_tasks (config : Config) (logs : list (string * list Z))
  : list Task :=
  a ← enabled_approaches config;
  combo ← take 1 (product (params a).*2);
  log ← take 1 logs;
  [task_of config a combo log].

(** The number of parameter combinations of a grid. *)
Definition grid_size (args : list (string * list PyVal)) : nat :=
  foldr (λ kv n, length kv.2 * n) 1 args.

(** The entry of [_args] that an approach contributes. *)
Definition args_entry (a : Approach)
  : string * (list (string * PyVal) * list (string * list PyVal)) :=
  (function a, (default [] (meta_params a), params a)).

(** What the loop over [_args] appends for one approach. *)
Definition family (is_test_run : bool) (a : Approach) : list Task :=
  (λ permutation, (function a, dict_or permutation (dict_of (default [] (meta_params a)))))
    <$> (if is_test_run then take 1 else id)
          ((λ v, dict_of (zip (params a).*1 v)) <$> product (params a).*2).

(** The step of the comprehension that builds [_args]. *)
Definition args_step
    (d : list (string * (list (string * PyVal) * list (string * list PyVal))))
    (a : Approach)
  : list (string * (list (string * PyVal) * list (string * list PyVal))) :=
  if is_enabled a
  then dict_set (function a) (default [] (meta_params a), params a) d
  else d.

(** A configuration with two enabled approaches and a disabled one, and
    two logs. *)
Definition example_config : Config :=
  mkConfig
    [("bose", mkApproach None "testBose" None
                [("window_size", [VInt 100; VInt 200]); ("step_size", [VInt 2; VInt 5])]);
     ("earthmover", mkApproach (Some true) "testEarthMover"
                      (Some [("step_size", VInt 2)])
                      [("window_size", [VInt 100; VInt 200; VInt 300])]);
     ("lcdd", mkApproach (Some false) "testLCDD" None
                [("stable_period", [VInt 10])])]%string
    (VInt 200) false.

Definition example_logs : list (string * list Z) :=
  [("EvaluationLogs/Ostovar/a.xes.gz", [999; 1999]%Z);
   ("EvaluationLogs/Bose/bose_log.xes.gz", [1199; 2399; 3599; 4799]%Z)]%string.

End TaskBuilder.

(** ** Further vocabulary for the aggregator *)

Module Survival.
Import Aggregator.

(** What the sort and the candidate search read of a record. *)
Definition key (r : Rec) : Z * Z := (window_size r, cp r).

(** The (window size, change point) pairs of the input dict. *)
Definition pairs (cp_all_window_sizes : list (Z * list Z)) : list (Z * Z) :=
  '(ws, cp_list) ← cp_all_window_sizes; (λ c, (ws, c)) <$> cp_list.

(** [q] can absorb [p]: it was detected with a strictly smaller window and
    lies within the radius [p.1 * alpha] of [p]. *)
Definition merge_target (alpha : Q) (p q : Z * Z) : Prop :=
  (q.1 < p.1)%Z ∧ within alpha (Z.abs (p.2 - q.2)) p.1 = true.

(** The record at index [i] finds no merge candidate. *)
Definition survivor (alpha : Q) (records : list Rec) (i : nat) : Prop :=
  match records !! i with
  | Some rec_a => candidates alpha rec_a records i = []
  | None => False
  end.

#[global] Instance survivor_dec alpha records i : Decision (survivor alpha records i).
Proof. unfold survivor. destruct (records !! i); apply _. Defined.

(** The loop invariant at the start of iteration [i] of the merge loop over
    [records]: the keys of the records are untouched, the records appended
    to [merged_records] are those that found no candidate, and they are read
    in the order of [records]. *)
Definition decided (alpha : Q) (records : list Rec) (i : nat)
    (st : list Rec * list nat) : Prop :=
  key <$> st.1 = key <$> records
  ∧ st.2 = filter (survivor alpha records) (seq 0 i)
  ∧ omap (λ k, st.1 !! k) st.2 `sublist_of` take i st.1.

(** What every record keeps throughout the merge loop: its own window size
    is the least of its supporting windows, and its support counts at least
    one detection per supporting window. *)
Definition anchored (r : Rec) : Prop :=
  window_size r ∈ supporting_windows r
  ∧ (∀ w, w ∈ supporting_windows r → (window_size r ≤ w)%Z)
  ∧ (Z.of_nat (size (supporting_windows r)) ≤ support r)%Z.

End Survival.

(** ** Vocabulary for the periodic writes *)

Module Durability.
Import ResultBuffer Executor.





End Durability.

(** ** The helpers: durations and log names *)

Module Helpers.
Import Stdlib.Strings.Ascii.

(** The range of [datetime.utcfromtimestamp] on a POSIX platform: the years
    1 to 9999. *)
Definition min_timestamp : Z := -62135596800.
Definition max_timestamp : Z := 253402300799.

Definition digit (n : Z) : Ascii.ascii := Ascii.ascii_of_nat (48 + Z.to_nat n).

(** A field of [strftime] with two digits. *)
Definition two_digits (n : Z) : string :=
  String (digit (n / 10)) (String (digit (n mod 10)) EmptyString).

(** ['%H:%M:%S'] of the time of day [t], in seconds after midnight. *)
Definition strftime_HMS (t : Z) : string :=
  (two_digits (t / 3600) +:+ ":" +:+ two_digits (t mod 3600 / 60) +:+ ":"
   +:+ two_digits (t mod 60))%string.

(** [calcDurFromSeconds]: [math.floor], then the time of day of that UTC
    timestamp.  [seconds] is a finite float, taken as the rational number it
    is; [None] is the [ValueError] of a timestamp outside the years 1 to
    9999. *)
Definition calcDurFromSeconds (seconds : Q) : option string :=
  let seconds := Qfloor seconds in
  if bool_decide (min_timestamp ≤ seconds ≤ max_timestamp)%Z
  then Some (strftime_HMS (seconds mod 86400))
  else None.

(** Reading a duration back, for the statements about the format. *)
Definition digit_value (c : Ascii.ascii) : Z := Z.of_nat (Ascii.nat_of_ascii c) - 48.

Definition seconds_of_HMS (s : string) : option Z :=
  match s with
  | String h1 (String h2 (String c1 (String m1 (String m2
      (String c2 (String s1 (String s2 EmptyString))))))) =>
      if bool_decide (c1 = ":"%char ∧ c2 = ":"%char)
      then Some ((digit_value h1 * 10 + digit_value h2) * 3600
                 + (digit_value m1 * 10 + digit_value m2) * 60
                 + (digit_value s1 * 10 + digit_value s2))%Z
      else None
  | _ => None
  end.

(** [s.split(sep)] for a separator of one character. *)
Fixpoint split_on (sep : Ascii.ascii) (s : string) : list string :=
  match s with
  | EmptyString => [EmptyString]
  | String c s' =>
      if decide (c = sep) then EmptyString :: split_on sep s'
      else
        match split_on sep s' with
        | w :: ws => String c w :: ws
        | [] => [String c EmptyString]
        end
  end.

(** [filepath.split('/')[-1].split('.')[0]], the [logname] of every task
    function. *)
Definition logname (filepath : string) : string :=
  hd EmptyString (split_on "."%char (List.last (split_on "/"%char filepath) EmptyString)).

(** The characters of a string. *)
Fixpoint chars (s : string) : list Ascii.ascii :=
  match s with
  | EmptyString => []
  | String c s' => c :: chars s'
  end.

End Helpers.

(** ** The multi-window task *)

Module MultiWindow.
Import Aggregator.

(** [d[k] = v] for the dict of change points by window size. *)
Fixpoint cp_dict_set (k : Z) (v : list Z) (d : list (Z * list Z)) : list (Z * list Z) :=
  match d with
  | [] => [(k, v)]
  | (k', v') :: d' =>
      if decide (k' = k) then (k, v) :: d' else (k', v') :: cp_dict_set k v d'
  end.

(** The loop of [testEarthMoverMultiWindow] that fills
    [cp_em_all_window_sizes].  [detect_change] is
    [earthmover.detect_change] on the log and step size of the task, as a
    function of the window size. *)
Definition cp_em_all_window_sizes (detect_change : Z → list Z)
    (window_sizes : list Z) : list (Z * list Z) :=
  foldl (λ d window_size, cp_dict_set window_size (detect_change window_size) d)
        [] window_sizes.

(** The value [cp_em] of [testEarthMoverMultiWindow]. *)
Definition cp_em (detect_change : Z → list Z) (window_sizes : list Z)
    (alpha : Q) (min_support_windows : Z) : list Z :=
  deduplicate_change_points_by_window
    (cp_em_all_window_sizes detect_change window_sizes) alpha min_support_windows.

End MultiWindow.

(** ** Facts about the helpers *)

Section sort_by.
Context {A : Type} (le : A → A → bool).

Lemma insert_by_Permutation x l : insert_by le x l ≡ₚ x :: l.
Proof.
  induction l as [|y l IH]; simpl; [done|].
  destruct (le x y); [done|].
  rewrite IH. apply Permutation_swap.
Qed.

Lemma sort_by_Permutation l : sort_by le l ≡ₚ l.
Proof.
  induction l as [|x l IH]; simpl; [done|].
  by rewrite insert_by_Permutation, IH.
Qed.

Hypothesis le_total : ∀ x y, le x y = true ∨ le y x = true.

Lemma insert_by_Sorted x l :
  Sorted (λ a b, le a b = true) l → Sorted (λ a b, le a b = true) (insert_by le x l).
Proof.
  induction l as [|y l IH]; simpl; intros Hs.
  - by repeat constructor.
  - destruct (le x y) eqn:Hxy.
    + constructor; [done|]. by constructor.
    + apply Sorted_inv in Hs as [Hs Hhd].
      constructor; [by apply IH|].
      destruct l as [|z l]; simpl.
      * constructor. destruct (le_total x y); congruence.
      * destruct (le x z).
        -- constructor. destruct (le_total x y); congruence.
        -- constructor. by apply HdRel_inv in Hhd.
Qed.

Lemma sort_by_Sorted l : Sorted (λ a b, le a b = true) (sort_by le l).
Proof.
  induction l as [|x l IH]; simpl; [constructor|]. by apply insert_by_Sorted.
Qed.

(** Sorting a list that is already in order changes nothing. *)
Lemma sort_by_sorted_id l :
  Sorted (λ a b, le a b = true) l → sort_by le l = l.
Proof.
  induction l as [|x l IH]; simpl; [done|]. intros Hs.
  apply Sorted_inv in Hs as [Hs Hhd]. rewrite (IH Hs).
  destruct l as [|y l]; simpl; [done|].
  apply HdRel_inv in Hhd. by rewrite Hhd.
Qed.
End sort_by.

(** Sorting commutes with a map that preserves the comparison. *)
Lemma sort_by_fmap {A B} (f : A → B) (leA : A → A → bool) (leB : B → B → bool) l :
  (∀ x y, leB (f x) (f y) = leA x y) →
  sort_by leB (f <$> l) = f <$> sort_by leA l.
Proof.
  intros Hf. unfold sort_by. induction l as [|x l IH]; csimpl; [done|].
  rewrite IH. generalize (foldr (insert_by leA) [] l) as s. intros s.
  induction s as [|y s IHs]; csimpl; [done|].
  rewrite Hf. destruct (leA x y); csimpl; [done|]. by rewrite IHs.
Qed.

(** A loop over [range(n)] keeps an invariant indexed by the loop counter. *)
Lemma foldl_seq_invariant {St} (step : St → nat → St) (I : nat → St → Prop) s0 n :
  I 0 s0 →
  (∀ i s, i < n → I i s → I (S i) (step s i)) →
  I n (foldl step s0 (seq 0 n)).
Proof.
  intros H0 Hstep.
  assert (∀ k i s, i + k = n → I i s → I n (foldl step s (seq i k))) as Hgen.
  { induction k as [|k IH]; intros i s Hik Hi; simpl.
    - by replace n with i by lia.
    - apply IH; [lia|]. apply Hstep; [lia|done]. }
  by apply Hgen.
Qed.

(** ** The aggregator *)

Module AggregatorFacts.
Import Aggregator.

Lemma sum_support_app l1 l2 :
  sum_support (l1 ++ l2) = (sum_support l1 + sum_support l2)%Z.
Proof. induction l1 as [|r l1 IH]; simpl; lia. Qed.

Lemma sum_support_Permutation l1 l2 :
  l1 ≡ₚ l2 → sum_support l1 = sum_support l2.
Proof. induction 1; simpl; lia. Qed.

Lemma sum_support_alter rec_a l k b :
  l !! k = Some b →
  sum_support (alter (absorb rec_a) k l) = (sum_support l + support rec_a)%Z.
Proof.
  revert k. induction l as [|r l IH]; intros [|k] Hk; simplify_eq/=; [lia|].
  rewrite (IH _ Hk). lia.
Qed.

Lemma flatten_records_length m : length (flatten_records m) = num_candidates m.
Proof.
  unfold flatten_records. induction m as [|[ws l] m IH]; csimpl; [done|].
  by rewrite length_app, length_fmap, IH.
Qed.

Lemma flatten_records_support m :
  Forall (λ r, support r = 1%Z ∧ supporting_windows r = {[window_size r]}
               ∧ window_size r ∈ m.*1)
         (flatten_records m).
Proof.
  unfold flatten_records. induction m as [|[ws l] m IH]; csimpl; [constructor|].
  apply Forall_app; split.
  - apply Forall_fmap, Forall_true. intros c; simpl. set_solver.
  - eapply Forall_impl; [exact IH|]. intros r (?&?&?). set_solver.
Qed.

Lemma sum_support_ones l :
  Forall (λ r, support r = 1%Z) l → sum_support l = Z.of_nat (length l).
Proof. induction 1 as [|r l Hr _ IH]; simpl; lia. Qed.

Lemma closest_elem_of cands x : closest cands = Some x → x ∈ cands.
Proof.
  destruct cands as [|c rest]; simpl; [done|]. intros [= <-].
  revert c. induction rest as [|y rest IH]; intros c; simpl; [set_solver|].
  destruct (y.1 <? c.1)%Z.
  - specialize (IH y). set_solver.
  - specialize (IH c). set_solver.
Qed.

Lemma candidates_elem_of alpha rec_a records i d j :
  (d, j) ∈ candidates alpha rec_a records i →
  i < j ∧ ∃ rec_b, records !! j = Some rec_b
                   ∧ (window_size rec_b < window_size rec_a)%Z.
Proof.
  unfold candidates. rewrite list_elem_of_omap. intros (k & Hk & Hc).
  apply elem_of_seq in Hk. unfold candidate in Hc.
  destruct (records !! k) as [rec_b|] eqn:Hb; simplify_eq/=.
  destruct (window_size rec_b >=? window_size rec_a)%Z eqn:Hws; [done|].
  destruct (within _ _ _); simplify_eq.
  split; [lia|]. exists rec_b. split; [done|]. lia.
Qed.

Lemma omap_lookup_alter (f : Rec → Rec) j (l : list Rec) (merged : list nat) :
  Forall (λ k, k < j) merged →
  omap (λ k, alter f j l !! k) merged = omap (λ k, l !! k) merged.
Proof.
  induction 1 as [|k merged Hk _ IH]; csimpl; [done|].
  rewrite list_lookup_alter_ne by lia. by rewrite IH.
Qed.

Lemma omap_lookup_seq (l : list Rec) :
  omap (λ k, l !! k) (seq 0 (length l)) = l.
Proof.
  induction l as [|r l IH] using rev_ind; [done|].
  rewrite length_app. simpl length.
  rewrite seq_app, omap_app. simpl seq. csimpl.
  rewrite list_lookup_middle by done. csimpl.
  f_equal. rewrite <- IH at 2.
  apply list_omap_ext. apply Forall_Forall2_diag.
  apply Forall_forall. intros k Hk%elem_of_seq.
  by rewrite lookup_app_l by lia.
Qed.

Section merge_loop.
Context (alpha : Q) (keys : gset Z).

Lemma absorb_backed a b : backed keys a → backed keys b → backed keys (absorb a b).
Proof. unfold backed. simpl. set_solver. Qed.

Lemma merge_step_conserves n total i st :
  i < n → conserves keys n total i st →
  conserves keys n total (S i) (merge_step alpha st i).
Proof.
  destruct st as [records merged]. unfold conserves, merge_step. simpl.
  intros Hi (Hlen & Hlt & Hsum & Hback).
  destruct (records !! i) as [rec_a|] eqn:Ha;
    [|apply lookup_ge_None in Ha; lia].
  rewrite (drop_S _ _ _ Ha) in Hsum. simpl in Hsum.
  assert (backed keys rec_a) as Hba.
  { eapply Forall_lookup_1 in Hback; eauto. }
  destruct (closest _) as [[d j]|] eqn:Hc; simpl.
  - apply closest_elem_of, candidates_elem_of in Hc as (Hij & rec_b & Hb & _).
    split_and!.
    + by rewrite length_alter.
    + eapply Forall_impl; [exact Hlt|]. simpl. lia.
    + rewrite omap_lookup_alter
        by (eapply Forall_impl; [exact Hlt|]; simpl; lia).
      rewrite drop_alter_ge by lia.
      rewrite (sum_support_alter _ _ _ rec_b); [lia|].
      rewrite lookup_drop. rewrite <- Hb. f_equal. lia.
    + apply Forall_alter; [done|]. intros b _. by apply absorb_backed.
  - split_and!; [done| | |done].
    + apply Forall_app; split.
      * eapply Forall_impl; [exact Hlt|]. simpl. lia.
      * repeat constructor.
    + rewrite omap_app, sum_support_app. csimpl. rewrite Ha. simpl. lia.
Qed.

Lemma merge_loop_conserves records :
  Forall (backed keys) records →
  conserves keys (length records) (sum_support records) (length records)
            (merge_loop alpha records).
Proof.
  intros Hback. unfold merge_loop.
  apply (foldl_seq_invariant (merge_step alpha)
           (conserves keys (length records) (sum_support records))).
  - unfold conserves. simpl. split_and!; [done|constructor| |done].
    rewrite drop_0. lia.
  - intros i st. apply merge_step_conserves.
Qed.

(** With a single window size no record has a merge candidate. *)
Lemma candidates_same_window ws rec_a records i :
  Forall (λ r, window_size r = ws) records → window_size rec_a = ws →
  candidates alpha rec_a records i = [].
Proof.
  intros Hall Ha. destruct (candidates _ _ _ _) as [|[d j] cs] eqn:Hc; [done|].
  assert ((d, j) ∈ candidates alpha rec_a records i) as Hin
    by (rewrite Hc; left).
  apply candidates_elem_of in Hin as (_ & rec_b & Hb & Hlt).
  eapply Forall_lookup_1 in Hall; eauto. simpl in Hall. lia.
Qed.

Lemma merge_loop_same_window ws records :
  Forall (λ r, window_size r = ws) records →
  merge_loop alpha records = (records, seq 0 (length records)).
Proof.
  intros Hall. unfold merge_loop.
  apply (foldl_seq_invariant (merge_step alpha) (λ i st, st = (records, seq 0 i))).
  - done.
  - intros i st Hi ->. rewrite seq_S. unfold merge_step. simpl.
    destruct (records !! i) as [rec_a|] eqn:Ha;
      [|apply lookup_ge_None in Ha; lia].
    rewrite (candidates_same_window ws); [|done|].
    + done.
    + eapply Forall_lookup_1 in Hall; eauto.
Qed.
End merge_loop.

End AggregatorFacts.

Module AggregatorClaims.
Import Aggregator AggregatorFacts.

Lemma filter_threshold_sublist (t1 t2 : Z) (l : list Rec) :
  (t1 ≤ t2)%Z →
  filter (λ r, (t2 ≤ support r)%Z) l `sublist_of` filter (λ r, (t1 ≤ support r)%Z) l.
Proof.
  intros Ht. induction l as [|r l IH]; [constructor|].
  rewrite !filter_cons.
  destruct (decide (t2 ≤ support r)%Z), (decide (t1 ≤ support r)%Z);
    try lia; auto using sublist_skip, sublist_cons.
Qed.

Lemma sorted_records_backed m :
  Forall (backed (list_to_set m.*1)) (sort_by key_le (flatten_records m)).
Proof.
  rewrite sort_by_Permutation.
  eapply Forall_impl; [apply flatten_records_support|].
  intros r (_ & Hw & Hin). unfold backed. rewrite Hw. set_solver.
Qed.

Lemma key_le_total a b : key_le a b = true ∨ key_le b a = true.
Proof.
  unfold key_le.
  destruct (Z.ltb_spec (- window_size a) (- window_size b)),
           (Z.ltb_spec (- window_size b) (- window_size a)),
           (Z.eqb_spec (- window_size a) (- window_size b)),
           (Z.eqb_spec (- window_size b) (- window_size a)),
           (Z.leb_spec (cp a) (cp b)), (Z.leb_spec (cp b) (cp a));
    simpl; auto; lia.
Qed.

(** C1, as the code has it: for [{10: [100], 3: [102]}] and [alpha = 1.0] the
    record of the larger window (10, at 100) is absorbed by the record of the
    smaller window (3, at 102).  The frame has exactly one row, at location
    102, of window size 3, with support 2 and supporting windows {3, 10};
    the insertion order of the two keys makes no difference. *)
Theorem aggregate_merges_into_smaller_window :
  agg_rows (aggregate_change_points_by_window [(10, [100]); (3, [102])]%Z 1%Q)
    = [mkRec 102 3 2 {[3%Z; 10%Z]}]
  ∧ agg_rows (aggregate_change_points_by_window [(3, [102]); (10, [100])]%Z 1%Q)
    = [mkRec 102 3 2 {[3%Z; 10%Z]}].
Proof. split; vm_compute; reflexivity. Qed.

(** C1 as stated (one record at location 100 with support 2) does not hold. *)
Lemma aggregate_location_100_refuted :
  ¬ ∃ r, agg_rows (aggregate_change_points_by_window [(10, [100]); (3, [102])]%Z 1%Q) = [r]
         ∧ cp r = 100%Z ∧ support r = 2%Z.
Proof.
  intros (r & Hr & Hcp & _). vm_compute in Hr. by simplify_eq.
Qed.

(** C4 at the input [{100: [500, 560], 50: [530]}], [alpha = 1.0],
    [min_support_windows = 3]: both detections of window size 100 are merged
    into the record at 530, whose support becomes 3 although only the two
    window sizes 50 and 100 back it; the filter keeps it. *)
Theorem support_counts_detections_not_windows :
  deduplicate_change_points_by_window [(100, [500; 560]); (50, [530])]%Z 1%Q 3
    = [530%Z]
  ∧ ∃ r, agg_rows (aggregate_change_points_by_window
                     [(100, [500; 560]); (50, [530])]%Z 1%Q) = [r]
         ∧ cp r = 530%Z ∧ support r = 3%Z
         ∧ supporting_windows r = {[50%Z; 100%Z]}
         ∧ size (supporting_windows r) = 2.
Proof.
  split; [vm_compute; reflexivity|].
  eexists. split; [vm_compute; reflexivity|]. split_and!; vm_compute; reflexivity.
Qed.

(** C5: raising [min_support_windows] from [t1] to [t2] only removes change
    points: the list returned for [t2] is a sublist (hence a subset) of the
    list returned for [t1]. *)
Theorem deduplicate_threshold_monotone m alpha (t1 t2 : Z) :
  (t1 ≤ t2)%Z →
  deduplicate_change_points_by_window m alpha t2
    `sublist_of` deduplicate_change_points_by_window m alpha t1
  ∧ deduplicate_change_points_by_window m alpha t2
    ⊆ deduplicate_change_points_by_window m alpha t1.
Proof.
  intros Ht.
  assert (deduplicate_change_points_by_window m alpha t2
    `sublist_of` deduplicate_change_points_by_window m alpha t1) as Hsub.
  { unfold deduplicate_change_points_by_window.
    destruct m as [|p m]; [constructor|].
    destruct (agg_empty _); [constructor|].
    by apply fmap_sublist, filter_threshold_sublist. }
  split; [done|]. by apply sublist_subseteq.
Qed.

Lemma deduplicate_threshold_monotone_witness :
  deduplicate_change_points_by_window [(10, [100]); (3, [102]); (5, [400])]%Z 1%Q 2
    `sublist_of` deduplicate_change_points_by_window [(10, [100]); (3, [102]); (5, [400])]%Z 1%Q 1
  ∧ deduplicate_change_points_by_window [(10, [100]); (3, [102]); (5, [400])]%Z 1%Q 2
    ⊆ deduplicate_change_points_by_window [(10, [100]); (3, [102]); (5, [400])]%Z 1%Q 1.
Proof. apply (deduplicate_threshold_monotone _ _ 1 2). lia. Defined.

(** C8: on the empty dict, [aggregate_change_points_by_window] returns the
    frame with the four column names and no rows (an empty frame), and
    [deduplicate_change_points_by_window] returns the empty list. *)
Theorem aggregation_of_empty_input alpha min_support_windows :
  aggregate_change_points_by_window [] alpha = mkAggFrame agg_column_names []
  ∧ agg_empty (aggregate_change_points_by_window [] alpha) = true
  ∧ deduplicate_change_points_by_window [] alpha min_support_windows = [].
Proof. done. Qed.

(** C10: the supports of the rows returned by
    [aggregate_change_points_by_window] add up to the number of
    (window size, change point) pairs of the input, and the supporting
    windows of every row are a non-empty subset of the input's window
    sizes. *)
Theorem aggregate_conserves_support m alpha :
  sum_support (agg_rows (aggregate_change_points_by_window m alpha))
    = Z.of_nat (num_candidates m)
  ∧ Forall (λ r, supporting_windows r ≠ ∅
                 ∧ supporting_windows r ⊆ list_to_set m.*1)
           (agg_rows (aggregate_change_points_by_window m alpha)).
Proof.
  unfold aggregate_change_points_by_window.
  destruct m as [|p m]; [by split; [|constructor]|].
  set (M := p :: m). set (records := sort_by key_le (flatten_records M)).
  simpl agg_rows.
  destruct (merge_loop_conserves alpha (list_to_set M.*1) records
              (sorted_records_backed M)) as (Hlen & _ & Hsum & Hback).
  rewrite drop_ge in Hsum by lia. simpl in Hsum. split.
  - rewrite Z.add_0_r in Hsum. rewrite Hsum. subst records.
    rewrite (sum_support_Permutation _ _ (sort_by_Permutation key_le _)).
    rewrite sum_support_ones, flatten_records_length; [done|].
    eapply Forall_impl; [apply flatten_records_support|]. naive_solver.
  - apply Forall_forall. intros r (k & _ & Hk)%list_elem_of_omap.
    eapply Forall_lookup_1 in Hback; eauto.
Qed.

Lemma Zleb_total (x y : Z) : (x <=? y)%Z = true ∨ (y <=? x)%Z = true.
Proof. destruct (Z.leb_spec x y), (Z.leb_spec y x); auto; lia. Qed.

Lemma Sorted_leb_le (l : list Z) :
  Sorted (λ a b, (a <=? b)%Z = true) l ↔ Sorted Z.le l.
Proof.
  split; induction 1 as [|x l Hs IH Hhd]; constructor; try done;
    destruct Hhd; constructor; lia.
Qed.

(** C6, as the code has it: for a dict with one window size and
    [min_support_windows = 1] the result is the input list of locations in
    ascending order (the records are sorted by [cp] before the merge loop);
    it is the input list itself exactly when that list is ascending. *)
Theorem deduplicate_single_window ws (l : list Z) alpha :
  deduplicate_change_points_by_window [(ws, l)] alpha 1 = sort_by Z.leb l
  ∧ Sorted Z.le (deduplicate_change_points_by_window [(ws, l)] alpha 1)
  ∧ deduplicate_change_points_by_window [(ws, l)] alpha 1 ≡ₚ l
  ∧ (deduplicate_change_points_by_window [(ws, l)] alpha 1 = l ↔ Sorted Z.le l).
Proof.
  assert (deduplicate_change_points_by_window [(ws, l)] alpha 1 = sort_by Z.leb l) as ->.
  { unfold deduplicate_change_points_by_window, aggregate_change_points_by_window.
    set (mk := λ c, mkRec c ws 1 {[ws]}).
    assert (flatten_records [(ws, l)] = mk <$> l) as ->
      by (unfold flatten_records; csimpl; by rewrite app_nil_r).
    rewrite (sort_by_fmap mk Z.leb key_le); last first.
    { intros x y. unfold key_le. simpl. rewrite Z.ltb_irrefl, Z.eqb_refl. done. }
    rewrite (merge_loop_same_window alpha ws); last first.
    { apply Forall_fmap, Forall_true. done. }
    simpl fst. simpl snd. rewrite omap_lookup_seq.
    assert (∀ s : list Z,
              cp <$> filter (λ r, (1 ≤ support r)%Z) (mk <$> s) = s) as Hkeep.
    { induction s as [|x s IH]; [done|].
      rewrite fmap_cons, filter_cons. simpl support.
      rewrite decide_True by lia. rewrite fmap_cons. simpl cp. by rewrite IH. }
    destruct (sort_by Z.leb l) as [|c s]; [done|].
    exact (Hkeep (c :: s)). }
  split_and!; [done| | |].
  - apply Sorted_leb_le, sort_by_Sorted, Zleb_total.
  - apply sort_by_Permutation.
  - split.
    + intros <-. apply Sorted_leb_le, sort_by_Sorted, Zleb_total.
    + intros Hs%Sorted_leb_le. by apply sort_by_sorted_id.
Qed.

(** C6 as stated fails on a list that is not ascending: [{10: [5, 3]}]
    gives [[3, 5]]. *)
Lemma deduplicate_single_window_reorders :
  deduplicate_change_points_by_window [(10, [5; 3])]%Z 1%Q 1 ≠ [5; 3]%Z.
Proof. vm_compute. discriminate. Qed.

End AggregatorClaims.

(** ** The result buffer *)

Module ResultBufferFacts.
Import ResultBuffer.





















End ResultBufferFacts.

Module ResultBufferClaims.
Import ResultBuffer ResultBufferFacts.




End ResultBufferClaims.

(** ** The executor *)

Module ExecutorFacts.
Import ResultBuffer Executor.

(** A value received from the pool is never the parent's [np.NaN] object. *)
Lemma received_is_not_np_NaN k v : py_is (received k v) np_NaN = false.
Proof. done. Qed.

Lemma testMartjushev_ADWIN_too_short rest len_log min_window max_window :
  (len_log ≤ min_window)%Z →
  testMartjushev_ADWIN rest len_log (min_window, max_window) = Returns RetNaN.
Proof. intros Hlen. unfold testMartjushev_ADWIN. by rewrite (proj2 (Z.leb_le _ _) Hlen). Qed.

Lemma periodic_write_results_df st : results_df (periodic_write st) = results_df st.
Proof. unfold periodic_write. by repeat case_match. Qed.

Lemma streaming_loop_ok_cons k st e outcomes :
  streaming_loop k st (ok e :: outcomes)
  = streaming_loop (S k)
      (periodic_write
         (mkMain (write_results_to_buffer e (results_df st)) (results_file_columns st)
                 (S (counter st)) (next_write_index st) (results_file st)))
      outcomes.
Proof. done. Qed.

Lemma streaming_loop_ok k st entries :
  (streaming_loop k st (ok <$> entries)).2 = None
  ∧ results_df (streaming_loop k st (ok <$> entries)).1
    = foldl (λ df e, write_results_to_buffer e df) (results_df st) entries.
Proof.
  revert k st. induction entries as [|e entries IH]; intros k st; [done|].
  rewrite fmap_cons, streaming_loop_ok_cons.
  destruct (IH (S k) (periodic_write
    (mkMain (write_results_to_buffer e (results_df st)) (results_file_columns st)
            (S (counter st)) (next_write_index st) (results_file st)))) as [-> ->].
  by rewrite periodic_write_results_df.
Qed.

Lemma streaming_loop_raises k st entries rest :
  streaming_loop k st ((ok <$> entries) ++ Raises :: rest)
  = ((streaming_loop k st (ok <$> entries)).1, Some TaskFault).
Proof.
  revert k st. induction entries as [|e entries IH]; intros k st; [done|].
  rewrite fmap_cons, <- app_comm_cons, !streaming_loop_ok_cons. apply IH.
Qed.

Lemma streaming_loop_not_applicable k st entries outcomes :
  streaming_loop k st ((ok <$> entries) ++ Returns RetNaN :: outcomes)
  = ((streaming_loop k st (ok <$> entries)).1, Some TypeError).
Proof.
  revert k st. induction entries as [|e entries IH]; intros k st; [done|].
  rewrite fmap_cons, <- app_comm_cons, !streaming_loop_ok_cons. apply IH.
Qed.

Lemma pool_map_ok entries :
  pool_map (ok <$> entries) = Some (RetEntries <$> entries).
Proof.
  induction entries as [|e entries IH]; [done|].
  rewrite !fmap_cons. unfold ok at 1. simpl pool_map. by rewrite IH.
Qed.

Lemma pool_map_raises entries rest :
  pool_map ((ok <$> entries) ++ Raises :: rest) = None.
Proof.
  induction entries as [|e entries IH]; [done|].
  rewrite fmap_cons, <- app_comm_cons. unfold ok at 1. simpl pool_map. by rewrite IH.
Qed.

Lemma filter_received (f : nat → Returned → PyObject) values :
  (∀ i v, py_is (f i v) np_NaN = false) →
  filter (λ r, py_is r np_NaN = false) (imap f values) = imap f values.
Proof.
  intros Hf. revert f Hf. induction values as [|v values IH]; intros f Hf; [done|].
  csimpl. rewrite filter_cons, decide_True by apply Hf.
  f_equal. apply IH. intros i w. apply Hf.
Qed.

Lemma flatten_results_received (f : nat → Returned → PyObject) entries :
  (∀ i v, obj_value (f i v) = v) →
  flatten_results (imap f (RetEntries <$> entries)) = Some (mjoin entries).
Proof.
  intros Hf. revert f Hf. induction entries as [|e entries IH]; intros f Hf; [done|].
  csimpl. rewrite Hf. rewrite IH by (intros i w; apply Hf). done.
Qed.

Lemma pool_map_app outcomes1 outcomes2 :
  pool_map (outcomes1 ++ outcomes2)
  = values1 ← pool_map outcomes1; values2 ← pool_map outcomes2; Some (values1 ++ values2).
Proof.
  induction outcomes1 as [|[|v] outcomes1 IH]; simpl.
  - by destruct (pool_map outcomes2).
  - done.
  - rewrite IH. destruct (pool_map outcomes1); [|done]. simpl.
    by destruct (pool_map outcomes2).
Qed.

Lemma flatten_results_not_applicable (f : nat → Returned → PyObject) entries values :
  (∀ i v, obj_value (f i v) = v) →
  flatten_results (imap f ((RetEntries <$> entries) ++ RetNaN :: values)) = None.
Proof.
  intros Hf. revert f Hf. induction entries as [|e entries IH]; intros f Hf.
  - simpl. by rewrite Hf.
  - csimpl. rewrite Hf. rewrite IH by (intros i w; apply Hf). done.
Qed.

Lemma bulk_not_applicable st entries entries' :
  bulk st ((ok <$> entries) ++ Returns RetNaN :: (ok <$> entries'))
  = (st, Some TypeError).
Proof.
  unfold bulk. rewrite pool_map_app, pool_map_ok. simpl.
  rewrite pool_map_ok. simpl.
  rewrite filter_received by done.
  by rewrite (flatten_results_not_applicable received entries (RetEntries <$> entries')).
Qed.

End ExecutorFacts.

Module ExecutorClaims.
Import ResultBuffer Executor ExecutorFacts.

(** C2 on a log of 1000 cases with [min_max_window_pair = (1500, 3000)]:
    [testMartjushev_ADWIN] returns [np.NaN]; the object the parent receives
    from the pool is not the parent's [np.NaN] object, so neither
    [if result is np.NaN: continue] nor the filter [r is not np.NaN] skips
    it, and iterating over the float raises [TypeError]: in streaming mode
    after the tasks before it have been appended, in bulk mode before
    anything is appended.  There is no final write. *)
Theorem not_applicable_result_aborts_batch rest old_file entries outcomes entries' :
  testMartjushev_ADWIN rest 1000 (1500, 3000)%Z = Returns RetNaN
  ∧ main true old_file
      ((ok <$> entries) ++ testMartjushev_ADWIN rest 1000 (1500, 3000)%Z :: outcomes)
    = ((streaming_loop 0 (mkMain (mkDF [] []) [] 0 0 old_file) (ok <$> entries)).1,
       Some TypeError)
  ∧ main false old_file
      ((ok <$> entries) ++ testMartjushev_ADWIN rest 1000 (1500, 3000)%Z
         :: (ok <$> entries'))
    = (mkMain (mkDF [] []) [] 0 0 old_file, Some TypeError).
Proof.
  split_and!; [done| |].
  - unfold main. by rewrite streaming_loop_not_applicable.
  - unfold main. by rewrite bulk_not_applicable.
Qed.

(** C3, as the code has it.  When every task returns its entries, [main]
    ends without exception, accumulates all entries and writes the whole
    table to the results file at the end.  When a task raises, [main] ends
    with that exception in the state the loop had reached, without the
    final write: in streaming mode the file holds what the periodic writes
    put there, in bulk mode the file is untouched. *)
Theorem final_write_on_normal_completion DO_SINGLE_BAR old_file entries rest :
  (main DO_SINGLE_BAR old_file (ok <$> entries)).2 = None
  ∧ results_df (main DO_SINGLE_BAR old_file (ok <$> entries)).1
    = (if DO_SINGLE_BAR then accumulated entries
       else write_results_to_buffer (mjoin entries) (mkDF [] []))
  ∧ results_file (main DO_SINGLE_BAR old_file (ok <$> entries)).1
    = to_csv (results_df (main DO_SINGLE_BAR old_file (ok <$> entries)).1)
  ∧ main true old_file ((ok <$> entries) ++ Raises :: rest)
    = ((streaming_loop 0 (mkMain (mkDF [] []) [] 0 0 old_file) (ok <$> entries)).1,
       Some TaskFault)
  ∧ main false old_file ((ok <$> entries) ++ Raises :: rest)
    = (mkMain (mkDF [] []) [] 0 0 old_file, Some TaskFault).
Proof.
  set (st0 := mkMain (mkDF [] []) [] 0 0 old_file).
  assert (bulk st0 (ok <$> entries)
          = (mkMain (write_results_to_buffer (mjoin entries) (mkDF [] []))
                    [] 0 0 old_file, None)) as Hbulk.
  { unfold bulk. rewrite pool_map_ok.
    rewrite filter_received by done.
    by rewrite flatten_results_received. }
  split_and!.
  - unfold main. fold st0. destruct DO_SINGLE_BAR.
    + destruct (streaming_loop_ok 0 st0 entries) as [-> _]. done.
    + by rewrite Hbulk.
  - unfold main. fold st0. destruct DO_SINGLE_BAR.
    + destruct (streaming_loop_ok 0 st0 entries) as [-> ->]. done.
    + by rewrite Hbulk.
  - unfold main. fold st0. destruct DO_SINGLE_BAR.
    + destruct (streaming_loop_ok 0 st0 entries) as [-> _]. done.
    + by rewrite Hbulk.
  - unfold main. fold st0. by rewrite streaming_loop_raises.
  - unfold main, bulk. by rewrite pool_map_raises.
Qed.

(** C3 as stated fails when a task raises: after one completed task and one
    fault the table has a row and the results file is still what it was
    before the run (here: empty), in both modes. *)
Lemma no_final_write_after_task_fault :
  let outcomes := [ok [[("Algorithm"%string, VStr "LCDD")]]; Raises] in
  rows (results_df (main true [] outcomes).1) = [[Some (VStr "LCDD")]]
  ∧ results_file (main true [] outcomes).1 = []
  ∧ results_file (main true [] outcomes).1
    ≠ to_csv (results_df (main true [] outcomes).1)
  ∧ results_file (main false [] outcomes).1 = [].
Proof. vm_compute. split_and!; done. Qed.

End ExecutorClaims.

(** ** The task builder *)

Module TaskBuilderFacts.
Import TaskBuilder.

Lemma dict_set_fresh {V} k (v : V) d : k ∉ d.*1 → dict_set k v d = d ++ [(k, v)].
Proof.
  induction d as [|[k' v'] d IH]; csimpl; [done|]. intros Hk.
  apply not_elem_of_cons in Hk as [Hne Hk].
  rewrite decide_False by done. by rewrite IH.
Qed.

(** With distinct function names, [_args] has one entry per enabled
    approach, in the order of the configuration. *)
Lemma enabled_args_distinct config :
  NoDup (function <$> enabled_approaches config) →
  enabled_args config = args_entry <$> enabled_approaches config.
Proof.
  unfold enabled_args, enabled_approaches.
  generalize ((approaches config).*2). intros l.
  assert (∀ acc,
    NoDup (acc.*1 ++ (function <$> filter (λ a, is_enabled a = true) l)) →
    foldl (λ d a, if is_enabled a
                  then dict_set (function a) (default [] (meta_params a), params a) d
                  else d) acc l
    = acc ++ (args_entry <$> filter (λ a, is_enabled a = true) l)) as Hgen.
  { induction l as [|a l IH]; intros acc Hnd; simpl.
    - by rewrite app_nil_r.
    - rewrite filter_cons in *. destruct (is_enabled a) eqn:Ha.
      + rewrite decide_True in * by done. rewrite fmap_cons in *.
        assert (function a ∉ acc.*1) as Hfresh.
        { apply NoDup_app in Hnd as (_ & Hnd & _). intros Hin.
          apply (Hnd _ Hin). left. }
        rewrite dict_set_fresh by done. rewrite IH.
        * by rewrite <- (assoc_L (++)).
        * rewrite fmap_app, <- (assoc_L (++)). done.
      + rewrite decide_False in * by done. by apply IH. }
  intros Hnd. by rewrite Hgen.
Qed.

Lemma family_arguments_entries is_test_run (l : list Approach) :
  Forall (λ a, params a ≠ []) l →
  family_arguments is_test_run (args_entry <$> l) = Some (l ≫= family is_test_run).
Proof.
  induction 1 as [|a l Ha _ IH]; [done|].
  rewrite fmap_cons, bind_cons. unfold args_entry at 1. simpl family_arguments.
  rewrite IH. unfold permutations_dicts.
  destruct (params a) as [|kv args] eqn:Hp; [done|]. simpl.
  unfold family. rewrite Hp. by destruct is_test_run.
Qed.

Lemma list_bind_bind {A B C} (f : A → list B) (g : B → list C) (l : list A) :
  (l ≫= f) ≫= g = l ≫= (λ x, f x ≫= g).
Proof.
  induction l as [|x l IH]; [done|]. by rewrite !bind_cons, bind_app, IH.
Qed.

(** Pairing every combination with every log gives the expected tasks. *)
Lemma cross_with_logs is_test_run config (logs : list (string * list Z)) (l : list Approach) :
  (t ← l ≫= family is_test_run;
   meta_arg ← meta_arg config <$> logs;
   [(t.1, dict_or t.2 meta_arg)])
  = (a ← l;
     combo ← (if is_test_run then take 1 else id) (product (params a).*2);
     log ← logs;
     [task_of config a combo log]).
Proof.
  rewrite list_bind_bind. apply list_bind_ext; [|done]. intros a.
  unfold family. rewrite list_fmap_bind.
  assert (∀ (f : list PyVal → gmap string PyVal) (ls : list (list PyVal)),
            (if is_test_run then take 1 else id) (f <$> ls)
            = f <$> (if is_test_run then take 1 else id) ls) as ->
    by (intros; destruct is_test_run; [by rewrite fmap_take|done]).
  rewrite list_fmap_bind. apply list_bind_ext; [|done]. intros combo. simpl.
  by rewrite list_fmap_bind.
Qed.

Lemma length_bind_const {A B} (f : A → list B) (l : list A) n :
  (∀ x, length (f x) = n) → length (l ≫= f) = length l * n.
Proof.
  intros Hf. induction l as [|x l IH]; [done|].
  rewrite bind_cons, length_app, Hf, IH. simpl. lia.
Qed.

Lemma length_product (values : list (list PyVal)) :
  length (product values) = foldr (λ vs n, length vs * n) 1 values.
Proof.
  induction values as [|vs values IH]; [done|]. simpl.
  rewrite (length_bind_const _ _ (length (product values))); [by rewrite IH|].
  intros v. rewrite (length_bind_const _ _ 1); [lia|done].
Qed.

Lemma length_product_grid (args : list (string * list PyVal)) :
  length (product args.*2) = grid_size args.
Proof.
  rewrite length_product. unfold grid_size.
  induction args as [|kv args IH]; [done|]. csimpl. by rewrite IH.
Qed.

Lemma length_expected_tasks config (logs : list (string * list Z)) :
  length (expected_tasks config logs)
  = sum_list (grid_size ∘ params <$> enabled_approaches config) * length logs.
Proof.
  unfold expected_tasks. induction (enabled_approaches config) as [|a l IH]; [done|].
  rewrite bind_cons, length_app, IH, fmap_cons. simpl sum_list.
  rewrite (length_bind_const _ _ (length logs)).
  - rewrite length_product_grid. lia.
  - intros combo. rewrite (length_bind_const _ _ 1); [lia|done].
Qed.

Lemma length_expected_test_run_tasks config (logs : list (string * list Z)) :
  length (expected_test_run_tasks config logs) ≤ length (enabled_approaches config).
Proof.
  unfold expected_test_run_tasks. induction (enabled_approaches config) as [|a l IH]; [done|].
  rewrite bind_cons, length_app. simpl length.
  enough (length (combo ← take 1 (product (params a).*2);
                  log ← take 1 logs; [task_of config a combo log]) ≤ 1) by lia.
  destruct (product (params a).*2) as [|combo ?]; [csimpl; lia|].
  destruct logs as [|log ?]; csimpl; lia.
Qed.

Lemma with_position_lookup idx (t : Task) :
  (with_position idx t).2 !! "position"%string = Some (VInt (Z.of_nat idx)).
Proof.
  unfold with_position, dict_or. simpl.
  apply lookup_union_Some_l, lookup_singleton_eq.
Qed.

End TaskBuilderFacts.

Module TaskBuilderClaims.
Import TaskBuilder TaskBuilderFacts.

(** C9, as the code has it.  For a configuration whose enabled approaches
    name distinct functions and have at least one parameter each, and a
    shuffle that permutes the list:
    - the tasks are a permutation of one task per enabled approach,
      parameter combination of its grid and log, and there are as many as
      the grid sizes add up to, times the number of logs;
    - in a test run they are a permutation of one task per enabled approach
      that has a parameter combination, for its first combination and the
      first log: at most one task per enabled approach, not one task in all;
    - the positions are given after the shuffle: the task at index [i] of
      the result has position [i]. *)
Theorem build_arguments_list_tasks shuffle config logs :
  (∀ l, shuffle l ≡ₚ l) →
  NoDup (function <$> enabled_approaches config) →
  Forall (λ a, params a ≠ []) (enabled_approaches config) →
  (∃ l, l ≡ₚ expected_tasks config logs
        ∧ build_arguments_list shuffle config logs false = Some (imap with_position l))
  ∧ length (expected_tasks config logs)
    = sum_list (grid_size ∘ params <$> enabled_approaches config) * length logs
  ∧ (∃ l, l ≡ₚ expected_test_run_tasks config logs
          ∧ build_arguments_list shuffle config logs true = Some (imap with_position l))
  ∧ length (expected_test_run_tasks config logs) ≤ length (enabled_approaches config)
  ∧ (∀ is_test_run tasks i (t : Task),
       build_arguments_list shuffle config logs is_test_run = Some tasks →
       tasks !! i = Some t →
       t.2 !! "position"%string = Some (VInt (Z.of_nat i))).
Proof.
  intros Hshuffle Hnd Hparams.
  assert (∀ is_test_run,
    build_arguments_list shuffle config logs is_test_run
    = Some (imap with_position (shuffle
        (a ← enabled_approaches config;
         combo ← (if is_test_run then take 1 else id) (product (params a).*2);
         log ← (if is_test_run then take 1 logs else logs);
         [task_of config a combo log])))) as Hbuild.
  { intros b. unfold build_arguments_list.
    rewrite enabled_args_distinct, family_arguments_entries by done.
    simpl. by rewrite cross_with_logs. }
  split_and!.
  - eexists. split; [|apply (Hbuild false)]. apply Hshuffle.
  - apply length_expected_tasks.
  - eexists. split; [|apply (Hbuild true)]. apply Hshuffle.
  - apply length_expected_test_run_tasks.
  - intros b tasks i t Htasks Ht. rewrite Hbuild in Htasks.
    injection Htasks as <-. rewrite list_lookup_imap in Ht.
    destruct (_ !! i) as [x|]; simplify_eq/=. apply with_position_lookup.
Qed.

Lemma build_arguments_list_tasks_witness :
  ∃ l, l ≡ₚ expected_tasks example_config example_logs
       ∧ build_arguments_list reverse example_config example_logs false
         = Some (imap with_position l).
Proof.
  refine (proj1 (build_arguments_list_tasks reverse example_config example_logs _ _ _)).
  - intros l. apply reverse_Permutation.
  - by apply (bool_decide_unpack _).
  - by repeat constructor.
Defined.

(** C9 as stated fails in a test run with two enabled approaches: the list
    has two tasks, one per approach, not a single one. *)
Lemma test_run_keeps_one_task_per_approach :
  ¬ ∃ t, build_arguments_list id example_config example_logs true = Some [t].
Proof.
  intros [t Ht]. apply (f_equal (fmap length)) in Ht. vm_compute in Ht. discriminate.
Qed.

End TaskBuilderClaims.

(** ** More about the aggregator *)

Module SurvivalFacts.
Import Aggregator AggregatorFacts Survival.

Lemma key_absorb a b : key (absorb a b) = key b.
Proof. done. Qed.

Lemma key_le_key a b a' b' :
  key a = key a' → key b = key b' → key_le a b = key_le a' b'.
Proof. unfold key, key_le. by intros [= -> ->] [= -> ->]. Qed.

Lemma key_le_trans a b c :
  key_le a b = true → key_le b c = true → key_le a c = true.
Proof.
  unfold key_le. rewrite !orb_true_iff, !andb_true_iff.
  rewrite !Z.ltb_lt, !Z.eqb_eq, !Z.leb_le. lia.
Qed.

Lemma key_le_antisym a b :
  key_le a b = true → key_le b a = true → key a = key b.
Proof.
  unfold key_le, key. rewrite !orb_true_iff, !andb_true_iff.
  rewrite !Z.ltb_lt, !Z.eqb_eq, !Z.leb_le. intros ??.
  f_equal; lia.
Qed.

Lemma key_le_window a b : key_le a b = true → (window_size b ≤ window_size a)%Z.
Proof.
  unfold key_le. rewrite !orb_true_iff, !andb_true_iff.
  rewrite !Z.ltb_lt, !Z.eqb_eq. lia.
Qed.

Lemma key_flatten_records m : key <$> flatten_records m = pairs m.
Proof.
  unfold flatten_records, pairs. induction m as [|[ws l] m IH]; csimpl; [done|].
  rewrite fmap_app, IH. f_equal. rewrite <- list_fmap_compose. done.
Qed.

(** The candidates of a record depend on the keys of the records only. *)
Lemma candidates_keys alpha a1 a2 (s1 s2 : list Rec) i :
  key a1 = key a2 → key <$> s1 = key <$> s2 →
  candidates alpha a1 s1 i = candidates alpha a2 s2 i.
Proof.
  intros Ha Hs. unfold candidates.
  assert (length s1 = length s2) as ->
    by (rewrite <- (length_fmap key s1), Hs; apply length_fmap).
  apply list_omap_ext, Forall_Forall2_diag, Forall_forall. intros j _.
  unfold candidate.
  assert (key <$> s1 !! j = key <$> s2 !! j) as Hj
    by (rewrite <- !list_lookup_fmap; by rewrite Hs).
  unfold key in Ha. injection Ha as Hw Hc.
  destruct (s1 !! j) as [b1|], (s2 !! j) as [b2|]; try done.
  simpl in Hj. unfold key in Hj. injection Hj as Hbw Hbc. simpl.
  by rewrite Hw, Hc, Hbw, Hbc.
Qed.

(** A record has no candidate exactly when no later record is a merge
    target of it. *)
Lemma candidates_nil alpha rec_a records i :
  candidates alpha rec_a records i = []
  ↔ ∀ j rec_b, i < j → records !! j = Some rec_b →
      ¬ merge_target alpha (key rec_a) (key rec_b).
Proof.
  unfold candidates, merge_target. split.
  - intros Hnil j rec_b Hij Hb [Hlt Hin]. simpl in *.
    assert ((Z.abs (cp rec_a - cp rec_b), j)
            ∈ omap (candidate alpha rec_a records)
                   (seq (S i) (length records - S i))) as Hel.
    { apply list_elem_of_omap. exists j. split.
      - apply elem_of_seq. apply lookup_lt_Some in Hb. lia.
      - unfold candidate. rewrite Hb. simpl.
        destruct (Z.geb_spec (window_size rec_b) (window_size rec_a)); [lia|].
        by rewrite Hin. }
    rewrite Hnil in Hel. by apply elem_of_nil in Hel.
  - intros Hno.
    destruct (omap _ _) as [|[d j] cs] eqn:Hc; [done|].
    assert ((d, j) ∈ omap (candidate alpha rec_a records)
                          (seq (S i) (length records - S i))) as Hel
      by (rewrite Hc; left).
    apply list_elem_of_omap in Hel as (k & Hk%elem_of_seq & Hcand).
    unfold candidate in Hcand.
    destruct (records !! k) as [rec_b|] eqn:Hb; simplify_eq/=.
    destruct (Z.geb_spec (window_size rec_b) (window_size rec_a)); [done|].
    destruct (within _ _ _) eqn:Hin; simplify_eq.
    destruct (Hno j rec_b); [lia|done|]. split; simpl; [lia|done].
Qed.

Lemma closest_nil cands : closest cands = None → cands = [].
Proof. by destruct cands. Qed.

Lemma key_alter_absorb rec_a j (store : list Rec) :
  key <$> alter (absorb rec_a) j store = key <$> store.
Proof.
  rewrite (list_fmap_alter _ (absorb rec_a) id) by (by apply Forall_true).
  by apply list_alter_id.
Qed.

Lemma filter_survivor_lt alpha records i :
  Forall (λ k, k < i) (filter (survivor alpha records) (seq 0 i)).
Proof.
  apply Forall_forall. intros k [_ Hk%elem_of_seq]%list_elem_of_filter. lia.
Qed.

Lemma merge_step_decided alpha records i st :
  i < length records → decided alpha records i st →
  decided alpha records (S i) (merge_step alpha st i).
Proof.
  destruct st as [store merged]. unfold decided, merge_step. cbn [fst snd].
  intros Hi (Hkeys & -> & Hsub).
  assert (length store = length records) as Hlen
    by (rewrite <- (length_fmap key store), Hkeys; apply length_fmap).
  destruct (store !! i) as [rec_a|] eqn:Ha;
    [|apply lookup_ge_None in Ha; lia].
  destruct (records !! i) as [a0|] eqn:Ha0;
    [|apply lookup_ge_None in Ha0; lia].
  assert (key rec_a = key a0) as Hk.
  { assert (key <$> store !! i = key <$> records !! i) as Hl
      by (rewrite <- !list_lookup_fmap; by rewrite Hkeys).
    rewrite Ha, Ha0 in Hl. simpl in Hl. congruence. }
  rewrite (candidates_keys alpha rec_a a0 store records i Hk Hkeys).
  rewrite seq_S, filter_app. rewrite Nat.add_0_l.
  pose proof (filter_survivor_lt alpha records i) as Hlt.
  destruct (closest _) as [[d j]|] eqn:Hc; simpl.
  - assert (¬ survivor alpha records i) as Hns.
    { unfold survivor. rewrite Ha0. intros Hnil. by rewrite Hnil in Hc. }
    rewrite filter_cons, decide_False, filter_nil, app_nil_r by done.
    apply closest_elem_of, candidates_elem_of in Hc as (Hij & _).
    split_and!.
    + by rewrite key_alter_absorb.
    + done.
    + rewrite omap_lookup_alter
        by (eapply Forall_impl; [exact Hlt|]; simpl; lia).
      rewrite take_alter_ge by lia.
      rewrite (take_S_r _ _ _ Ha). by apply sublist_inserts_r.
  - apply closest_nil in Hc.
    assert (survivor alpha records i) as Hs by (unfold survivor; by rewrite Ha0).
    rewrite filter_cons, decide_True, filter_nil by done.
    split_and!; [done|done|].
    rewrite omap_app, (take_S_r _ _ _ Ha). csimpl. rewrite Ha.
    by apply sublist_app.
Qed.

Lemma merge_loop_decided alpha records :
  decided alpha records (length records) (merge_loop alpha records).
Proof.
  unfold merge_loop.
  apply (foldl_seq_invariant (merge_step alpha) (decided alpha records)).
  - unfold decided. simpl. split_and!; [done|done|constructor].
  - intros i st. apply merge_step_decided.
Qed.

(** A property of records that [absorb] keeps holds of all records after
    the loop. *)
Lemma merge_loop_Forall (P : Rec → Prop) alpha records :
  (∀ a b, P a → P b → (window_size b < window_size a)%Z → P (absorb a b)) →
  Forall P records → Forall P (merge_loop alpha records).1.
Proof.
  intros Habs HP. unfold merge_loop.
  apply (foldl_seq_invariant (merge_step alpha) (λ _ st, Forall P st.1)); [done|].
  intros i [store merged] _ Hst. unfold merge_step. simpl in *.
  destruct (store !! i) as [rec_a|] eqn:Ha; [|done].
  destruct (closest _) as [[d j]|] eqn:Hc; [|done]. simpl.
  apply closest_elem_of, candidates_elem_of in Hc as (_ & rec_b & Hb & Hlt).
  apply Forall_alter; [done|]. intros b Hb' Pb. simplify_eq.
  apply Habs; [|done|done]. by eapply Forall_lookup_1 in Hst.
Qed.

(** The rows of the frame are some of the records after the loop. *)
Lemma merged_rows_sublist alpha records :
  omap (λ i, (merge_loop alpha records).1 !! i) (merge_loop alpha records).2
    `sublist_of` (merge_loop alpha records).1.
Proof.
  destruct (merge_loop_decided alpha records) as (Hkeys & _ & Hsub).
  rewrite take_ge in Hsub; [done|].
  rewrite <- (length_fmap key (merge_loop alpha records).1), Hkeys.
  by rewrite length_fmap.
Qed.

Lemma StronglySorted_sublist {A} (R : relation A) l1 l2 :
  l1 `sublist_of` l2 → StronglySorted R l2 → StronglySorted R l1.
Proof.
  induction 1 as [|x l1 l2 Hsub IH|x l1 l2 Hsub IH]; intros Hs; [done|..].
  - apply StronglySorted_inv in Hs as [Hs Hx]. constructor; [by apply IH|].
    apply Forall_forall. intros y Hy. eapply Forall_forall in Hx; [done|].
    by apply (sublist_subseteq _ _ Hsub).
  - apply StronglySorted_inv in Hs as [Hs _]. by apply IH.
Qed.

Lemma StronglySorted_lookup_lt {A} (R : relation A) l i j x y :
  StronglySorted R l → l !! i = Some x → l !! j = Some y → i < j → R x y.
Proof.
  intros Hs. revert i j. induction Hs as [|z l Hs IH Hz]; intros i j Hi Hj Hij.
  - done.
  - destruct i as [|i], j as [|j]; try lia; simplify_eq/=.
    + eapply Forall_forall in Hz; [done|]. by eapply list_elem_of_lookup_2.
    + eapply IH; [done|done|lia].
Qed.

Lemma keys_Forall2 (l1 l2 : list Rec) :
  key <$> l1 = key <$> l2 → Forall2 (λ a b, key a = key b) l1 l2.
Proof. intros Hk%list_eq_Forall2. by apply (Forall2_fmap key key eq) in Hk. Qed.

(** Order by keys is order of the records, whatever their supports. *)
Lemma StronglySorted_keys (l1 l2 : list Rec) :
  key <$> l1 = key <$> l2 →
  StronglySorted (λ a b, key_le a b = true) l1 →
  StronglySorted (λ a b, key_le a b = true) l2.
Proof.
  intros Hk%keys_Forall2. induction Hk as [|x y l1 l2 Hxy Hk IH]; [done|].
  intros [Hs Hx]%StronglySorted_inv. constructor; [by apply IH|].
  clear IH Hs. induction Hk as [|z w l1 l2 Hzw Hk IH]; [done|].
  apply Forall_cons in Hx as [Hz Hx]. constructor; [|by apply IH].
  by rewrite <- (key_le_key x z y w).
Qed.

Lemma sorted_records_StronglySorted l :
  StronglySorted (λ a b, key_le a b = true) (sort_by key_le l).
Proof.
  apply Sorted_StronglySorted.
  - intros a b c. apply key_le_trans.
  - apply sort_by_Sorted. intros a b. unfold key_le.
    destruct (Z.ltb_spec (- window_size a) (- window_size b)),
             (Z.ltb_spec (- window_size b) (- window_size a)),
             (Z.eqb_spec (- window_size a) (- window_size b)),
             (Z.eqb_spec (- window_size b) (- window_size a)),
             (Z.leb_spec (cp a) (cp b)), (Z.leb_spec (cp b) (cp a));
      simpl; auto; lia.
Qed.

(** The rows of the frame, for every input. *)
Lemma agg_rows_merge_loop m alpha :
  agg_rows (aggregate_change_points_by_window m alpha)
  = omap (λ i, (merge_loop alpha (sort_by key_le (flatten_records m))).1 !! i)
         (merge_loop alpha (sort_by key_le (flatten_records m))).2.
Proof. by destruct m. Qed.

(** The result of the filter, for every input. *)
Lemma deduplicate_merge_loop m alpha t :
  deduplicate_change_points_by_window m alpha t
  = cp <$> filter (λ r, (t ≤ support r)%Z)
                  (agg_rows (aggregate_change_points_by_window m alpha)).
Proof.
  unfold deduplicate_change_points_by_window. destruct m as [|p m]; [done|].
  destruct (agg_empty _) eqn:He; [|done].
  unfold agg_empty in He. apply orb_true_iff in He as [He|He].
  - apply bool_decide_eq_true in He. revert He.
    unfold aggregate_change_points_by_window, DataFrame_of_records. simpl.
    by destruct (omap _ _).
  - apply bool_decide_eq_true in He. by rewrite He.
Qed.

(** Which keys the rows have: those of the records that no record of a
    strictly smaller window size can absorb. *)
Lemma survivors_keys alpha records p :
  StronglySorted (λ a b, key_le a b = true) records →
  (∃ r, r ∈ omap (λ i, (merge_loop alpha records).1 !! i) (merge_loop alpha records).2
        ∧ key r = p)
  ↔ p ∈ key <$> records ∧ ¬ ∃ q, q ∈ key <$> records ∧ merge_target alpha p q.
Proof.
  intros Hsorted.
  destruct (merge_loop_decided alpha records) as (Hkeys & Hmerged & _).
  assert (∀ i, key <$> (merge_loop alpha records).1 !! i = key <$> records !! i) as Hl
    by (intros i; rewrite <- !list_lookup_fmap; by rewrite Hkeys).
  split.
  - intros (r & (i & Hi & Hr)%list_elem_of_omap & <-).
    rewrite Hmerged in Hi. apply list_elem_of_filter in Hi as [Hs _].
    unfold survivor in Hs. specialize (Hl i). rewrite Hr in Hl.
    destruct (records !! i) as [a|] eqn:Ha; [|done]. simpl in Hl.
    assert (key r = key a) as Hra by congruence. clear Hl. split.
    + rewrite Hra. apply list_elem_of_fmap. exists a. split; [done|].
      by eapply list_elem_of_lookup_2.
    + intros (q & (b & -> & (j & Hb)%list_elem_of_lookup)%list_elem_of_fmap & Ht).
      rewrite Hra in Ht. destruct (lt_eq_lt_dec i j) as [[Hij|<-]|Hji].
      * by eapply (proj1 (candidates_nil alpha a records i) Hs j b).
      * destruct Ht as [Hlt _]. simplify_eq. simpl in Hlt. lia.
      * destruct Ht as [Hlt _]. simpl in Hlt.
        pose proof (StronglySorted_lookup_lt _ _ _ _ _ _ Hsorted Hb Ha Hji) as Hle.
        apply key_le_window in Hle. lia.
  - intros [(a & -> & (i & Ha)%list_elem_of_lookup)%list_elem_of_fmap Hno].
    specialize (Hl i). rewrite Ha in Hl.
    destruct ((merge_loop alpha records).1 !! i) as [r|] eqn:Hr; [|done].
    simpl in Hl. assert (key r = key a) as Hra by congruence.
    exists r. split; [|done].
    apply list_elem_of_omap. exists i. split; [|done].
    rewrite Hmerged. apply list_elem_of_filter. split.
    + unfold survivor. rewrite Ha. apply candidates_nil.
      intros j b _ Hb Ht. apply Hno. exists (key b). split; [|done].
      apply list_elem_of_fmap. exists b. split; [done|].
      by eapply list_elem_of_lookup_2.
    + apply elem_of_seq. apply lookup_lt_Some in Ha. lia.
Qed.

Lemma fresh_anchored m : Forall anchored (sort_by key_le (flatten_records m)).
Proof.
  rewrite sort_by_Permutation.
  eapply Forall_impl; [apply flatten_records_support|].
  intros r (Hs & Hw & _). unfold anchored. rewrite Hw, Hs. split_and!.
  - set_solver.
  - intros w ->%elem_of_singleton. lia.
  - rewrite size_singleton. lia.
Qed.

Lemma absorb_anchored a b :
  anchored a → anchored b → (window_size b < window_size a)%Z →
  anchored (absorb a b).
Proof.
  unfold anchored. simpl. intros (Ha1 & Ha2 & Ha3) (Hb1 & Hb2 & Hb3) Hlt.
  split_and!.
  - set_solver.
  - intros w [Hw|Hw]%elem_of_union; [by apply Hb2|].
    specialize (Ha2 w Hw). lia.
  - rewrite size_union_alt.
    assert (size (supporting_windows a ∖ supporting_windows b)
            ≤ size (supporting_windows a)) by (apply subseteq_size; set_solver).
    lia.
Qed.

Lemma rows_anchored m alpha :
  Forall anchored (agg_rows (aggregate_change_points_by_window m alpha)).
Proof.
  rewrite agg_rows_merge_loop.
  apply Forall_forall. intros r Hr.
  apply (sublist_subseteq _ _ (merged_rows_sublist alpha _)) in Hr.
  revert r Hr. apply Forall_forall.
  apply merge_loop_Forall; [apply absorb_anchored|apply fresh_anchored].
Qed.

Lemma anchored_support r : anchored r → (1 ≤ support r)%Z.
Proof.
  intros (Hin & _ & Hsize).
  assert (size (supporting_windows r) ≠ 0)
    by (apply size_non_empty_iff; set_solver).
  lia.
Qed.

Lemma keys_sorted_records m :
  key <$> sort_by key_le (flatten_records m) ≡ₚ pairs m.
Proof. by rewrite sort_by_Permutation, key_flatten_records. Qed.

Lemma flatten_records_pairs m :
  flatten_records m = (λ p, mkRec p.2 p.1 1 {[p.1]}) <$> pairs m.
Proof.
  unfold flatten_records, pairs. induction m as [|[ws l] m IH]; csimpl; [done|].
  rewrite fmap_app, IH. f_equal. by rewrite <- list_fmap_compose.
Qed.

(** Records that were just created are equal when their keys are, so the
    sorted list does not depend on the order before the sort. *)
Lemma sort_by_key_unique (l1 l2 : list Rec) :
  Forall (λ r, support r = 1%Z ∧ supporting_windows r = {[window_size r]}) l1 →
  l1 ≡ₚ l2 → sort_by key_le l1 = sort_by key_le l2.
Proof.
  intros Hfresh Hp.
  apply (StronglySorted_unique_strong (λ a b, key_le a b = true));
    try apply sorted_records_StronglySorted.
  - intros x1 x2 Hx1 Hx2 H12 H21.
    rewrite sort_by_Permutation in Hx1. rewrite sort_by_Permutation, <- Hp in Hx2.
    eapply Forall_forall in Hx1; [|exact Hfresh].
    eapply Forall_forall in Hx2; [|exact Hfresh].
    pose proof (key_le_antisym _ _ H12 H21) as Hk. unfold key in Hk.
    destruct x1, x2, Hx1, Hx2. simplify_eq/=. done.
  - by rewrite !sort_by_Permutation.
Qed.

Lemma sorted_records_order_independent m m' :
  pairs m ≡ₚ pairs m' →
  sort_by key_le (flatten_records m) = sort_by key_le (flatten_records m').
Proof.
  intros Hp. apply sort_by_key_unique.
  - eapply Forall_impl; [apply flatten_records_support|]. naive_solver.
  - rewrite !flatten_records_pairs. by rewrite Hp.
Qed.

End SurvivalFacts.

Module AggregatorExtras.
Import Aggregator AggregatorFacts Survival SurvivalFacts.


(** The result depends on the detections only, not on how the dict lists
    them: two inputs with the same (window size, change point) pairs, in any
    order of keys and of list elements, give the same rows and the same
    filtered list.  In particular a window size with an empty list counts
    for nothing. *)
Theorem deduplicate_order_independent m m' alpha t :
  pairs m ≡ₚ pairs m' →
  agg_rows (aggregate_change_points_by_window m alpha)
    = agg_rows (aggregate_change_points_by_window m' alpha)
  ∧ deduplicate_change_points_by_window m alpha t
    = deduplicate_change_points_by_window m' alpha t.
Proof.
  intros Hp.
  assert (agg_rows (aggregate_change_points_by_window m alpha)
          = agg_rows (aggregate_change_points_by_window m' alpha)) as Hrows
    by (by rewrite !agg_rows_merge_loop, (sorted_records_order_independent m m')).
  split; [done|]. by rewrite !deduplicate_merge_loop, Hrows.
Qed.

Lemma deduplicate_order_independent_witness :
  deduplicate_change_points_by_window [(3, [102; 7]); (10, [100]); (5, [])]%Z 1%Q 2
  = deduplicate_change_points_by_window [(10, [100]); (3, [7; 102])]%Z 1%Q 2.
Proof.
  refine (proj2 (deduplicate_order_independent _ _ _ _ _)).
  by apply (bool_decide_unpack _).
Defined.

(** Every row sits at the smallest of its supporting windows: its own
    window size is in [supporting_windows] and is the least element, and
    its support is at least the number of supporting windows, which is at
    least one. *)
Theorem rows_anchored_at_finest_window m alpha :
  Forall (λ r, window_size r ∈ supporting_windows r
               ∧ (∀ w, w ∈ supporting_windows r → (window_size r ≤ w)%Z)
               ∧ 1 ≤ size (supporting_windows r)
               ∧ (Z.of_nat (size (supporting_windows r)) ≤ support r)%Z)
         (agg_rows (aggregate_change_points_by_window m alpha)).
Proof.
  eapply Forall_impl; [apply rows_anchored|].
  intros r (Hin & Hmin & Hsize). split_and!; try done.
  assert (size (supporting_windows r) ≠ 0)
    by (apply size_non_empty_iff; set_solver).
  lia.
Qed.

(** The rows come in the order of the sort: by descending window size, and
    by ascending location within one window size. *)
Theorem rows_in_sort_order m alpha :
  StronglySorted
    (λ a b, (window_size b < window_size a)%Z
            ∨ (window_size b = window_size a ∧ (cp a ≤ cp b)%Z))
    (agg_rows (aggregate_change_points_by_window m alpha)).
Proof.
  rewrite agg_rows_merge_loop.
  set (records := sort_by key_le (flatten_records m)).
  eapply StronglySorted_sublist; [apply merged_rows_sublist|].
  pose proof (StronglySorted_keys records (merge_loop alpha records).1
                (eq_sym (proj1 (merge_loop_decided alpha records)))
                (sorted_records_StronglySorted _)) as Hs.
  rewrite <- (list_fmap_id (merge_loop alpha records).1).
  eapply (StronglySorted_fmap id); [|exact Hs].
  intros a b. unfold key_le. simpl.
  rewrite !orb_true_iff, !andb_true_iff, !Z.ltb_lt, !Z.eqb_eq, !Z.leb_le. lia.
Qed.

(** A threshold of at most one switches the filter off: every row of the
    frame has support at least one, so the result is the [cp] column of the
    whole frame. *)
Theorem deduplicate_threshold_one_keeps_all m alpha (t : Z) :
  (t ≤ 1)%Z →
  deduplicate_change_points_by_window m alpha t
  = cp <$> agg_rows (aggregate_change_points_by_window m alpha).
Proof.
  intros Ht. rewrite deduplicate_merge_loop. f_equal.
  pose proof (rows_anchored m alpha) as Hrows.
  induction Hrows as [|r rows Hr _ IH]; [done|].
  apply anchored_support in Hr.
  rewrite filter_cons, decide_True by lia. by rewrite IH.
Qed.

Lemma deduplicate_threshold_one_keeps_all_witness :
  deduplicate_change_points_by_window [(10, [100; 400]); (3, [102])]%Z 1%Q 0
  = cp <$> agg_rows (aggregate_change_points_by_window
                       [(10, [100; 400]); (3, [102])]%Z 1%Q).
Proof. apply deduplicate_threshold_one_keeps_all. lia. Defined.

(** With a single window size nothing is merged, every support is one, and
    any threshold above one gives the empty list, whatever [alpha] is. *)
Theorem deduplicate_single_window_above_one ws (l : list Z) alpha (t : Z) :
  (1 < t)%Z → deduplicate_change_points_by_window [(ws, l)] alpha t = [].
Proof.
  intros Ht. rewrite deduplicate_merge_loop, agg_rows_merge_loop.
  rewrite (merge_loop_same_window alpha ws).
  - cbn [fst snd]. rewrite omap_lookup_seq.
    assert (Forall (λ r, support r = 1%Z)
                   (sort_by key_le (flatten_records [(ws, l)]))) as Hone.
    { rewrite sort_by_Permutation.
      eapply Forall_impl; [apply flatten_records_support|]. naive_solver. }
    revert Hone. generalize (sort_by key_le (flatten_records [(ws, l)])).
    intros rs Hone. induction Hone as [|r rs Hr _ IH]; [done|].
    rewrite filter_cons, decide_False by lia. apply IH.
  - rewrite sort_by_Permutation.
    unfold flatten_records. csimpl. rewrite app_nil_r.
    by apply Forall_fmap, Forall_true.
Qed.

Lemma deduplicate_single_window_above_one_witness :
  deduplicate_change_points_by_window [(100, [499; 1003; 1500])]%Z (1 # 2) 2 = [].
Proof. apply deduplicate_single_window_above_one. lia. Defined.

(** The detections of the smallest window size are never merged away: each
    of their locations is in the result when the threshold is at most
    one. *)
Theorem finest_window_detections_survive m alpha ws c (t : Z) :
  (ws, c) ∈ pairs m →
  (∀ q, q ∈ pairs m → (ws ≤ q.1)%Z) →
  (t ≤ 1)%Z →
  c ∈ deduplicate_change_points_by_window m alpha t.
Proof.
  intros Hin Hmin Ht. rewrite deduplicate_merge_loop.
  assert (∃ r, r ∈ omap (λ i, (merge_loop alpha (sort_by key_le (flatten_records m))).1 !! i)
                        (merge_loop alpha (sort_by key_le (flatten_records m))).2
               ∧ key r = (ws, c)) as (r & Hr & Hk).
  { apply survivors_keys; [apply sorted_records_StronglySorted|].
    setoid_rewrite (keys_sorted_records m). split; [done|].
    intros (q & Hq & Hlt & _). specialize (Hmin q Hq). simpl in Hlt. lia. }
  rewrite <- agg_rows_merge_loop in Hr.
  apply list_elem_of_fmap. exists r. split; [by injection Hk|].
  apply list_elem_of_filter. split; [|done].
  pose proof (rows_anchored m alpha) as Hrows.
  eapply Forall_forall in Hrows; [|exact Hr].
  apply anchored_support in Hrows. lia.
Qed.

Lemma finest_window_detections_survive_witness :
  102%Z ∈ deduplicate_change_points_by_window [(10, [100]); (3, [102])]%Z 1%Q 1.
Proof.
  apply (finest_window_detections_survive _ _ 3%Z).
  - by apply (bool_decide_unpack _).
  - apply Forall_forall. by apply (bool_decide_unpack _).
  - lia.
Defined.

(** The result holds detected locations only: every location returned was
    reported for some window size of the input. *)
Theorem deduplicate_returns_detected_locations m alpha (t : Z) c :
  c ∈ deduplicate_change_points_by_window m alpha t →
  ∃ ws, (ws, c) ∈ pairs m.
Proof.
  rewrite deduplicate_merge_loop, agg_rows_merge_loop.
  intros (r & -> & [_ Hr]%list_elem_of_filter)%list_elem_of_fmap.
  exists (window_size r).
  assert ((window_size r, cp r) ∈ key <$> sort_by key_le (flatten_records m)
          ∧ ¬ ∃ q, q ∈ key <$> sort_by key_le (flatten_records m)
                   ∧ merge_target alpha (window_size r, cp r) q) as [Hin _].
  { apply survivors_keys; [apply sorted_records_StronglySorted|]. by exists r. }
  by rewrite keys_sorted_records in Hin.
Qed.

Lemma deduplicate_returns_detected_locations_witness :
  ∃ ws, (ws, 102%Z) ∈ pairs [(10, [100]); (3, [102])]%Z.
Proof.
  apply (deduplicate_returns_detected_locations _ 1%Q 1).
  by apply (bool_decide_unpack _).
Defined.

End AggregatorExtras.

(** ** More about the result buffer *)

Module ResultBufferMoreFacts.
Import ResultBuffer ResultBufferFacts.










End ResultBufferMoreFacts.

(** ** More about the executor *)

Module DurabilityFacts.
Import ResultBuffer ResultBufferFacts ResultBufferMoreFacts Executor ExecutorFacts Durability.























End DurabilityFacts.

Module BufferExtras.
Import ResultBuffer ResultBufferFacts ResultBufferMoreFacts.







End BufferExtras.

Module ExecutorExtras.
Import ResultBuffer Executor ExecutorFacts Durability DurabilityFacts.




End ExecutorExtras.

(** ** More about the task builder *)

Module TaskBuilderMoreFacts.
Import TaskBuilder TaskBuilderFacts.

Lemma dict_get_set_eq {V} k (v : V) d : dict_get (dict_set k v d) k = Some v.
Proof.
  induction d as [|[k' v'] d IH]; simpl.
  - by rewrite decide_True.
  - destruct (decide (k' = k)) as [->|Hne]; simpl.
    + by rewrite decide_True.
    + by rewrite decide_False.
Qed.

Lemma dict_get_set_ne {V} k k' (v : V) d :
  k' ≠ k → dict_get (dict_set k' v d) k = dict_get d k.
Proof.
  intros Hne. induction d as [|[k'' v''] d IH]; simpl.
  - by rewrite decide_False.
  - destruct (decide (k'' = k')) as [->|Hne']; simpl.
    + by rewrite !decide_False.
    + destruct (decide (k'' = k)); [done|]. apply IH.
Qed.

Lemma dict_set_keys {V} k (v : V) d x :
  x ∈ (dict_set k v d).*1 ↔ x = k ∨ x ∈ d.*1.
Proof.
  induction d as [|[k' v'] d IH]; csimpl.
  - rewrite list_elem_of_singleton, elem_of_nil. naive_solver.
  - destruct (decide (k' = k)) as [->|Hne]; csimpl;
      rewrite !elem_of_cons; [|rewrite IH]; naive_solver.
Qed.

Lemma dict_set_NoDup {V} k (v : V) d : NoDup d.*1 → NoDup (dict_set k v d).*1.
Proof.
  induction d as [|[k' v'] d IH]; csimpl; intros Hnd.
  - apply NoDup_singleton.
  - apply NoDup_cons in Hnd as [Hk' Hnd].
    destruct (decide (k' = k)) as [->|Hne]; csimpl.
    + by apply NoDup_cons.
    + apply NoDup_cons. split; [|by apply IH].
      rewrite dict_set_keys. naive_solver.
Qed.

Lemma dict_set_elem_of {V} k (v : V) d x :
  x ∈ dict_set k v d → x = (k, v) ∨ x ∈ d.
Proof.
  induction d as [|[k' v'] d IH]; simpl.
  - intros ->%list_elem_of_singleton. by left.
  - destruct (decide (k' = k)) as [->|Hne]; rewrite !elem_of_cons; naive_solver.
Qed.

Lemma enabled_args_foldl config :
  enabled_args config = foldl args_step [] (approaches config).*2.
Proof. done. Qed.

Lemma args_step_elem_of acc a e :
  e ∈ args_step acc a → e ∈ acc ∨ (is_enabled a = true ∧ e = args_entry a).
Proof.
  unfold args_step. destruct (is_enabled a); [|by left].
  intros [->|?]%dict_set_elem_of; [by right|by left].
Qed.

Lemma foldl_args_step_elem_of l acc e :
  e ∈ foldl args_step acc l →
  e ∈ acc ∨ ∃ a, a ∈ l ∧ is_enabled a = true ∧ e = args_entry a.
Proof.
  revert acc. induction l as [|a l IH]; intros acc He; [by left|].
  simpl in He. apply IH in He as [He|(b & Hb & ?)].
  - apply args_step_elem_of in He as [?|[??]]; [by left|].
    right. exists a. split; [left|done].
  - right. exists b. split; [by right|done].
Qed.

Lemma foldl_args_step_NoDup l acc :
  NoDup acc.*1 → NoDup (foldl args_step acc l).*1.
Proof.
  revert acc. induction l as [|a l IH]; intros acc Hnd; [done|].
  simpl. apply IH. unfold args_step. destruct (is_enabled a); [|done].
  by apply dict_set_NoDup.
Qed.

(** Approaches that are disabled or name another function leave the entry
    of a function alone. *)
Lemma foldl_args_step_get_ne l acc f :
  Forall (λ b, is_enabled b = true → function b ≠ f) l →
  dict_get (foldl args_step acc l) f = dict_get acc f.
Proof.
  revert acc. induction l as [|b l IH]; intros acc Hl; [done|].
  apply Forall_cons in Hl as [Hb Hl]. simpl. rewrite IH by done.
  unfold args_step. destruct (is_enabled b); [|done].
  apply dict_get_set_ne. by apply Hb.
Qed.

Lemma permutations_dicts_Some args perms :
  permutations_dicts args = Some perms →
  args ≠ [] ∧ perms = (λ v, dict_of (zip args.*1 v)) <$> product args.*2.
Proof. destruct args; [done|]. by intros [= <-]. Qed.

Lemma family_arguments_cons is_test_run f meta grid l :
  family_arguments is_test_run ((f, (meta, grid)) :: l)
  = perms ← permutations_dicts grid;
    arguments ← family_arguments is_test_run l;
    Some (((λ permutation, (f, dict_or permutation (dict_of meta)))
             <$> (if is_test_run then take 1 perms else perms)) ++ arguments).
Proof. done. Qed.

(** Where the arguments of a family come from. *)
Lemma family_arguments_elem_of is_test_run l args (t : Task) :
  family_arguments is_test_run l = Some args → t ∈ args →
  ∃ f meta grid combo,
    (f, (meta, grid)) ∈ l ∧ combo ∈ product grid.*2
    ∧ t = (f, dict_or (dict_of (zip grid.*1 combo)) (dict_of meta)).
Proof.
  revert args. induction l as [|[f [meta grid]] l IH]; intros args Hargs Ht.
  - injection Hargs as <-. by apply elem_of_nil in Ht.
  - rewrite family_arguments_cons in Hargs.
    destruct (permutations_dicts grid) as [perms|] eqn:Hp; [|done].
    destruct (family_arguments is_test_run l) as [rest|] eqn:Hrest; [|done].
    simpl in Hargs. injection Hargs as <-.
    apply permutations_dicts_Some in Hp as [_ ->].
    apply elem_of_app in Ht as [Ht|Ht].
    + apply list_elem_of_fmap in Ht as (p & -> & Hp).
      assert (p ∈ (λ v, dict_of (zip grid.*1 v)) <$> product grid.*2) as Hp'.
      { destruct is_test_run; [|done].
        by apply (sublist_subseteq _ _ (sublist_take _ 1)). }
      apply list_elem_of_fmap in Hp' as (combo & -> & Hcombo).
      exists f, meta, grid, combo. split; [left|done].
    + destruct (IH rest eq_refl Ht) as (f' & meta' & grid' & combo & Hin & ? & ?).
      exists f', meta', grid', combo. split; [by right|done].
Qed.

(** The builder raises exactly when an entry of [_args] has no parameter. *)
Lemma family_arguments_None is_test_run l :
  family_arguments is_test_run l = None ↔ Exists (λ e, e.2.2 = []) l.
Proof.
  induction l as [|[f [meta grid]] l IH].
  - split; [done|]. by intros ?%Exists_nil.
  - rewrite Exists_cons, family_arguments_cons. cbn [snd].
    destruct (permutations_dicts grid) as [perms|] eqn:Hp.
    + apply permutations_dicts_Some in Hp as [Hne _].
      destruct (family_arguments is_test_run l) as [rest|]; simpl.
      * split; [done|]. intros [?|Hex]; [done|]. by apply IH in Hex.
      * split; [|done]. intros _. right. by apply IH.
    + split; [|done]. intros _. left. by destruct grid.
Qed.

Lemma with_position_lookup_ne idx (t : Task) k :
  k ≠ "position"%string → (with_position idx t).2 !! k = t.2 !! k.
Proof.
  intros Hk. unfold with_position, dict_or. simpl.
  apply lookup_union_r. by apply lookup_singleton_ne.
Qed.

Lemma meta_arg_lookup config log :
  meta_arg config log !! "F1_LAG"%string = Some (F1_LAG config)
  ∧ meta_arg config log !! "filepath"%string = Some (VStr log.1)
  ∧ meta_arg config log !! "cp_locations"%string = Some (VList (VInt <$> log.2))
  ∧ meta_arg config log !! "show_progress_bar"%string
    = Some (VBool (negb (DO_SINGLE_BAR config))).
Proof.
  unfold meta_arg, dict_of. simpl foldl. split_and!; by simplify_map_eq.
Qed.

(** Where a task comes from: an enabled approach, one combination of its
    grid and one log. *)
Lemma build_task_origin shuffle config logs is_test_run tasks i (t : Task) :
  (∀ l, shuffle l ≡ₚ l) →
  build_arguments_list shuffle config logs is_test_run = Some tasks →
  tasks !! i = Some t →
  ∃ a combo log,
    a ∈ (approaches config).*2 ∧ is_enabled a = true
    ∧ combo ∈ product (params a).*2 ∧ log ∈ logs
    ∧ t = with_position i (task_of config a combo log).
Proof.
  intros Hshuffle Hbuild Ht. unfold build_arguments_list in Hbuild.
  destruct (family_arguments is_test_run (enabled_args config)) as [args|] eqn:Hargs;
    [|done].
  simpl in Hbuild. injection Hbuild as <-.
  rewrite list_lookup_imap in Ht.
  destruct (shuffle _ !! i) as [x|] eqn:Hx; [|done]. injection Ht as <-.
  apply list_elem_of_lookup_2 in Hx. rewrite Hshuffle in Hx.
  apply list_elem_of_bind in Hx as (t0 & Hx & Ht0).
  apply list_elem_of_bind in Hx as (m & ->%list_elem_of_singleton & Hm).
  apply list_elem_of_fmap in Hm as (log & -> & Hlog).
  destruct (family_arguments_elem_of _ _ _ _ Hargs Ht0)
    as (f & meta & grid & combo & Hin & Hcombo & ->).
  rewrite enabled_args_foldl in Hin.
  apply foldl_args_step_elem_of in Hin as [Hin|(a & Ha & Hen & Heq)];
    [by apply elem_of_nil in Hin|].
  unfold args_entry in Heq. injection Heq as -> -> ->.
  exists a, combo, log. split_and!; try done.
  destruct is_test_run; [|done]. by apply (sublist_subseteq _ _ (sublist_take _ 1)).
Qed.

End TaskBuilderMoreFacts.

Module TaskBuilderExtras.
Import TaskBuilder TaskBuilderFacts TaskBuilderMoreFacts.

(** [product] is the cartesian product: its elements are exactly the lists
    that take one value from each value list, in order. *)
Theorem product_is_cartesian (values : list (list PyVal)) (combo : list PyVal) :
  combo ∈ product values ↔ Forall2 (λ v vs, v ∈ vs) combo values.
Proof.
  revert combo. induction values as [|vs values IH]; intros combo; simpl.
  - rewrite list_elem_of_singleton. split; [by intros ->|by intros ->%Forall2_nil_inv_r].
  - rewrite list_elem_of_bind. split.
    + intros (v & (rest & ->%list_elem_of_singleton & Hrest)%list_elem_of_bind & Hv).
      constructor; [done|]. by apply IH.
    + intros (v & rest & Hv & Hrest & ->)%Forall2_cons_inv_r.
      exists v. split; [|done]. apply list_elem_of_bind. exists rest.
      split; [by apply list_elem_of_singleton|]. by apply IH.
Qed.

(** Every task comes from an enabled approach: it is the task of an
    approach of the configuration that is enabled, for one combination of
    that approach's grid and one of the logs, with its index in the list as
    position.  No task is built for a disabled approach or for a value that
    is not in the grid. *)
Theorem tasks_come_from_enabled_approaches shuffle config logs is_test_run
    tasks i (t : Task) :
  (∀ l, shuffle l ≡ₚ l) →
  build_arguments_list shuffle config logs is_test_run = Some tasks →
  tasks !! i = Some t →
  ∃ a combo log,
    a ∈ (approaches config).*2 ∧ is_enabled a = true
    ∧ combo ∈ product (params a).*2 ∧ log ∈ logs
    ∧ t = with_position i (task_of config a combo log).
Proof. apply build_task_origin. Qed.

Lemma tasks_come_from_enabled_approaches_witness :
  ∃ a combo log,
    a ∈ (approaches example_config).*2 ∧ is_enabled a = true
    ∧ combo ∈ product (params a).*2 ∧ log ∈ example_logs
    ∧ (with_position 0 (task_of example_config
         (mkApproach None "testBose" None
            [("window_size", [VInt 100; VInt 200]); ("step_size", [VInt 2; VInt 5])]%string)
         [VInt 100; VInt 2] ("EvaluationLogs/Ostovar/a.xes.gz"%string, [999; 1999]%Z)))
      = with_position 0 (task_of example_config a combo log).
Proof.
  refine (tasks_come_from_enabled_approaches id example_config example_logs false
            _ 0 _ _ eq_refl _).
  - done.
  - vm_compute. reflexivity.
Defined.

(** The arguments that all functions take win over the parameters of the
    approach: whatever the grid and the meta-parameters hold under these
    names, every task carries the path and the change points of one of the
    logs, the lag of the configuration, the progress-bar flag and its own
    index as position. *)
Theorem common_arguments_win shuffle config logs is_test_run tasks i (t : Task) :
  (∀ l, shuffle l ≡ₚ l) →
  build_arguments_list shuffle config logs is_test_run = Some tasks →
  tasks !! i = Some t →
  ∃ log, log ∈ logs
    ∧ t.2 !! "filepath"%string = Some (VStr log.1)
    ∧ t.2 !! "cp_locations"%string = Some (VList (VInt <$> log.2))
    ∧ t.2 !! "F1_LAG"%string = Some (F1_LAG config)
    ∧ t.2 !! "show_progress_bar"%string = Some (VBool (negb (DO_SINGLE_BAR config)))
    ∧ t.2 !! "position"%string = Some (VInt (Z.of_nat i)).
Proof.
  intros Hshuffle Hbuild Ht.
  destruct (build_task_origin _ _ _ _ _ _ _ Hshuffle Hbuild Ht)
    as (a & combo & log & _ & _ & _ & Hlog & ->).
  destruct (meta_arg_lookup config log) as (H1 & H2 & H3 & H4).
  exists log. split; [done|].
  rewrite !with_position_lookup_ne, with_position_lookup by done.
  unfold task_of, dict_or. cbn [snd].
  split_and!; try done; by apply lookup_union_Some_l.
Qed.

Lemma common_arguments_win_witness :
  ∃ log, log ∈ example_logs
    ∧ (with_position 0 (task_of example_config
         (mkApproach None "testBose" None
            [("window_size", [VInt 100; VInt 200]); ("step_size", [VInt 2; VInt 5])]%string)
         [VInt 100; VInt 2] ("EvaluationLogs/Ostovar/a.xes.gz"%string, [999; 1999]%Z))).2
        !! "filepath"%string = Some (VStr log.1).
Proof.
  destruct (common_arguments_win id example_config example_logs false
              _ 0 _ (λ l, reflexivity l) eq_refl
              (eq_refl : _ !! 0 = Some (with_position 0 (task_of example_config
         (mkApproach None "testBose" None
            [("window_size", [VInt 100; VInt 200]); ("step_size", [VInt 2; VInt 5])]%string)
         [VInt 100; VInt 2] ("EvaluationLogs/Ostovar/a.xes.gz"%string, [999; 1999]%Z)))))
    as (log & Hlog & Hpath & _).
  by exists log.
Defined.

(** When several approaches name the same function, the dict [_args] keeps
    one entry per function name, and the entry of a function is that of the
    last enabled approach that names it: the parameters of the earlier ones
    are dropped. *)
Theorem last_enabled_approach_wins config l1 a l2 :
  (approaches config).*2 = l1 ++ a :: l2 →
  is_enabled a = true →
  Forall (λ b, is_enabled b = true → function b ≠ function a) l2 →
  NoDup (enabled_args config).*1
  ∧ dict_get (enabled_args config) (function a)
    = Some (default [] (meta_params a), params a).
Proof.
  intros Hl Ha Hl2. rewrite enabled_args_foldl. split.
  - apply foldl_args_step_NoDup. constructor.
  - rewrite Hl, foldl_app. simpl foldl.
    rewrite foldl_args_step_get_ne by done.
    unfold args_step. rewrite Ha. apply dict_get_set_eq.
Qed.

Lemma last_enabled_approach_wins_witness :
  dict_get (enabled_args
              (mkConfig
                 [("bose_fine", mkApproach None "testBose" None
                                  [("window_size", [VInt 100])]);
                  ("bose_coarse", mkApproach None "testBose" None
                                    [("window_size", [VInt 400])])]%string
                 (VInt 200) false))
           "testBose"%string
  = Some ([], [("window_size", [VInt 400])]%string).
Proof.
  refine (proj2 (last_enabled_approach_wins
    (mkConfig
       [("bose_fine", mkApproach None "testBose" None [("window_size", [VInt 100])]);
        ("bose_coarse", mkApproach None "testBose" None [("window_size", [VInt 400])])]%string
       (VInt 200) false)
    [mkApproach None "testBose" None [("window_size", [VInt 100])]%string]
    (mkApproach None "testBose" None [("window_size", [VInt 400])]%string)
    [] eq_refl eq_refl _)).
  constructor.
Defined.

(** The builder raises exactly when some enabled approach has no parameter
    (for enabled approaches that name distinct functions); the logs, the
    shuffle and the test-run flag make no difference. *)
Theorem builder_raises_iff_empty_params shuffle config logs is_test_run :
  NoDup (function <$> enabled_approaches config) →
  build_arguments_list shuffle config logs is_test_run = None
  ↔ ∃ a, a ∈ enabled_approaches config ∧ params a = [].
Proof.
  intros Hnd. unfold build_arguments_list.
  rewrite enabled_args_distinct by done.
  split.
  - intros Hnone.
    destruct (family_arguments _ _) as [args|] eqn:Hargs; [done|].
    apply family_arguments_None, Exists_exists in Hargs as (e & He & Hp).
    apply list_elem_of_fmap in He as (a & -> & Ha). by exists a.
  - intros (a & Ha & Hp).
    assert (family_arguments is_test_run (args_entry <$> enabled_approaches config)
            = None) as ->; [|done].
    apply family_arguments_None, Exists_exists. exists (args_entry a).
    split; [by apply list_elem_of_fmap_2|done].
Qed.

Lemma builder_raises_iff_empty_params_witness :
  build_arguments_list id (mkConfig [("lcdd", mkApproach None "testLCDD" None [])]%string
                                    (VInt 200) false) example_logs false = None.
Proof.
  refine (proj2 (builder_raises_iff_empty_params id
            (mkConfig [("lcdd", mkApproach None "testLCDD" None [])]%string
                      (VInt 200) false) example_logs false _) _).
  - by apply (bool_decide_unpack _).
  - exists (mkApproach None "testLCDD" None []). split; [|done].
    by apply list_elem_of_singleton.
Defined.

End TaskBuilderExtras.

(** ** The helpers *)

Module HelpersFacts.
Import Stdlib.Strings.Ascii Helpers.

Lemma digit_value_digit d : (0 ≤ d ≤ 9)%Z → digit_value (digit d) = d.
Proof.
  intros Hd. unfold digit_value, digit.
  rewrite nat_ascii_embedding by lia. lia.
Qed.

Lemma two_digits_value n d1 d2 :
  (0 ≤ n < 100)%Z → two_digits n = String d1 (String d2 EmptyString) →
  (digit_value d1 * 10 + digit_value d2)%Z = n.
Proof.
  intros Hn [= <- <-].
  rewrite !digit_value_digit.
  - pose proof (Z.div_mod n 10). lia.
  - pose proof (Z.mod_pos_bound n 10). lia.
  - split; [apply Z.div_pos; lia|]. apply Z.lt_succ_r, Z.div_lt_upper_bound; lia.
Qed.

(** Reading back what ['%H:%M:%S'] prints. *)
Lemma seconds_of_strftime_HMS t :
  (0 ≤ t < 86400)%Z → seconds_of_HMS (strftime_HMS t) = Some t.
Proof.
  intros Ht. unfold strftime_HMS.
  assert (0 ≤ t / 3600 < 100)%Z as Hh.
  { split; [apply Z.div_pos; lia|]. apply Z.div_lt_upper_bound; lia. }
  pose proof (Z.mod_pos_bound t 3600 ltac:(lia)) as Hm3600.
  assert (0 ≤ t mod 3600 / 60 < 100)%Z as Hm.
  { split; [apply Z.div_pos; lia|]. apply Z.div_lt_upper_bound; lia. }
  assert (0 ≤ t mod 60 < 100)%Z as Hs
    by (pose proof (Z.mod_pos_bound t 60); lia).
  pose proof (two_digits_value (t / 3600)) as Hh'.
  pose proof (two_digits_value (t mod 3600 / 60)) as Hm'.
  pose proof (two_digits_value (t mod 60)) as Hs'.
  unfold two_digits in *.
  cbv [String.append seconds_of_HMS].
  rewrite bool_decide_eq_true_2 by done.
  rewrite (Hh' _ _ Hh eq_refl), (Hm' _ _ Hm eq_refl), (Hs' _ _ Hs eq_refl).
  f_equal.
  pose proof (Z.div_mod t 3600 ltac:(lia)).
  pose proof (Z.div_mod (t mod 3600) 60 ltac:(lia)).
  assert ((t mod 3600) mod 60 = t mod 60)%Z
    by (apply Z.mod_mod_divide; by exists 60%Z).
  lia.
Qed.

Lemma Qfloor_plus_Z (x : Q) (n : Z) : Qfloor (x + inject_Z n) = (Qfloor x + n)%Z.
Proof.
  destruct x as [a d]. unfold Qfloor, Qplus, inject_Z. simpl.
  rewrite Pos.mul_1_r, Z.mul_1_r. apply Z.div_add. lia.
Qed.

Lemma Qfloor_bounds (x : Q) (lo hi : Z) :
  (inject_Z lo <= x)%Q → (x < inject_Z hi)%Q → (lo ≤ Qfloor x < hi)%Z.
Proof.
  intros Hlo Hhi. split.
  - rewrite <- (Qfloor_Z lo). by apply Qfloor_resp_le.
  - rewrite Zlt_Qlt. eapply Qle_lt_trans; [apply Qfloor_le|done].
Qed.

(** *** Splitting *)

Lemma split_on_not_nil sep s : split_on sep s ≠ [].
Proof.
  destruct s as [|c s]; simpl; [done|].
  destruct (decide (c = sep)); [done|]. by destruct (split_on sep s).
Qed.

Lemma split_on_no_sep sep s : sep ∉ chars s → split_on sep s = [s].
Proof.
  induction s as [|c s IH]; simpl; [done|].
  intros [Hc Hs]%not_elem_of_cons.
  rewrite decide_False by done. by rewrite IH.
Qed.

Lemma split_on_pieces sep s :
  Forall (λ w, (sep ∉ chars w) ∧ ∀ c, c ∈ chars w → c ∈ chars s) (split_on sep s).
Proof.
  induction s as [|c s IH]; simpl.
  - repeat constructor; [by intros ?%elem_of_nil|done].
  - destruct (decide (c = sep)) as [->|Hne].
    + constructor.
      * split; [by intros ?%elem_of_nil|by intros ? ?%elem_of_nil].
      * eapply Forall_impl; [exact IH|]. intros w [? Hw]. split; [done|].
        intros x Hx. right. by apply Hw.
    + destruct (split_on sep s) as [|w ws]; simpl.
      * constructor; [|constructor]. simpl. split; set_solver.
      * apply Forall_cons in IH as [[Hw1 Hw2] IH]. constructor.
        -- split; [simpl; set_solver|]. simpl. intros x [->|Hx]%elem_of_cons; [left|].
           right. by apply Hw2.
        -- eapply Forall_impl; [exact IH|]. intros w' [? Hw']. split; [done|].
           intros x Hx. right. by apply Hw'.
Qed.

Lemma split_on_app sep a b :
  split_on sep (a +:+ String sep b) = split_on sep a ++ split_on sep b.
Proof.
  induction a as [|c a IH]; simpl.
  - by rewrite decide_True.
  - destruct (decide (c = sep)); [by rewrite IH|].
    rewrite IH. destruct (split_on sep a) as [|w ws] eqn:Hsp; [|done].
    by apply split_on_not_nil in Hsp.
Qed.

Lemma last_app_ne {A} (l1 l2 : list A) d :
  l2 ≠ [] → List.last (l1 ++ l2) d = List.last l2 d.
Proof.
  intros Hl2. induction l1 as [|x l1 IH]; [done|].
  simpl app. destruct (l1 ++ l2) as [|y l] eqn:Hl; [|done].
  by apply app_eq_nil in Hl as [_ ?].
Qed.

Lemma last_elem_of {A} (l : list A) d : l ≠ [] → List.last l d ∈ l.
Proof.
  induction l as [|x [|y l] IH]; intros Hl; [done|left|].
  right. by apply IH.
Qed.

Lemma chars_app a b : chars (a +:+ b) = chars a ++ chars b.
Proof. induction a as [|c a IH]; simpl; [done|]. by rewrite IH. Qed.

End HelpersFacts.

Module HelpersExtras.
Import Stdlib.Strings.Ascii Helpers HelpersFacts.

(** A duration below 24 hours is printed as [HH:MM:SS] of its whole
    seconds: reading the three fields back gives [floor(seconds)]. *)
Theorem calcDurFromSeconds_reads_back (seconds : Q) :
  (0 <= seconds)%Q → (seconds < 86400)%Q →
  ∃ s, calcDurFromSeconds seconds = Some s
       ∧ seconds_of_HMS s = Some (Qfloor seconds).
Proof.
  intros Hlo Hhi.
  destruct (Qfloor_bounds seconds 0 86400 Hlo Hhi) as [H0 H1].
  unfold calcDurFromSeconds. cbn zeta.
  rewrite bool_decide_eq_true_2
    by (unfold min_timestamp, max_timestamp; lia).
  eexists. split; [done|].
  rewrite Z.mod_small by lia. apply seconds_of_strftime_HMS. lia.
Qed.

Lemma calcDurFromSeconds_reads_back_witness :
  ∃ s, calcDurFromSeconds (7325 # 2) = Some s
       ∧ seconds_of_HMS s = Some (Qfloor (7325 # 2)).
Proof. apply calcDurFromSeconds_reads_back; by vm_compute. Defined.

(** Durations are printed modulo 24 hours: a day more gives the same
    string, so a run of 25 hours is shown as [01:00:00]. *)
Theorem calcDurFromSeconds_wraps_after_a_day (seconds : Q) :
  (min_timestamp ≤ Qfloor seconds)%Z →
  (Qfloor seconds + 86400 ≤ max_timestamp)%Z →
  calcDurFromSeconds (seconds + 86400) = calcDurFromSeconds seconds.
Proof.
  intros Hlo Hhi. unfold calcDurFromSeconds. cbn zeta.
  change (86400 : Q) with (inject_Z 86400).
  rewrite Qfloor_plus_Z.
  rewrite !bool_decide_eq_true_2 by (unfold min_timestamp in *; lia).
  f_equal. f_equal.
  rewrite <- (Z.mul_1_l 86400) at 1. apply Z.mod_add. lia.
Qed.

Lemma calcDurFromSeconds_wraps_after_a_day_witness :
  calcDurFromSeconds (3600 + 86400) = calcDurFromSeconds 3600.
Proof. apply calcDurFromSeconds_wraps_after_a_day; by vm_compute. Defined.

(** The log name has neither a slash nor a dot. *)
Theorem logname_has_no_slash_no_dot filepath :
  ("/"%char ∉ chars (logname filepath)) ∧ ("."%char ∉ chars (logname filepath)).
Proof.
  unfold logname.
  set (name := List.last (split_on "/"%char filepath) EmptyString).
  assert ("/"%char ∉ chars name) as Hname.
  { pose proof (split_on_pieces "/"%char filepath) as Hp. unfold name.
    destruct (split_on "/"%char filepath) as [|w ws] eqn:Hsp;
      [by intros ?%elem_of_nil|].
    assert (List.last (w :: ws) EmptyString ∈ w :: ws) as Hin
      by by apply last_elem_of.
    eapply Forall_forall in Hp; [|exact Hin]. by destruct Hp. }
  pose proof (split_on_pieces "."%char name) as Hp.
  destruct (split_on "."%char name) as [|w ws] eqn:Hsp;
    [by apply split_on_not_nil in Hsp|].
  apply Forall_cons in Hp as [[Hdot Hsub] _]. simpl. split; [|done].
  intros Hslash. by apply Hname, Hsub.
Qed.

(** The log name of [dir/name.ext] is [name]: the file name up to its first
    dot. *)
Theorem logname_of_path dir name ext :
  "/"%char ∉ chars name → "."%char ∉ chars name → "/"%char ∉ chars ext →
  logname (dir +:+ String "/"%char (name +:+ String "."%char ext)) = name.
Proof.
  intros Hn1 Hn2 He. unfold logname.
  rewrite split_on_app, last_app_ne by apply split_on_not_nil.
  rewrite (split_on_no_sep "/"%char).
  - simpl List.last. by rewrite split_on_app, (split_on_no_sep _ name).
  - rewrite chars_app. simpl. set_unfold. intros [?|[?|?]]; done.
Qed.

Lemma logname_of_path_witness :
  logname "EvaluationLogs/Ostovar/loop.xes.gz" = "loop"%string.
Proof.
  apply (logname_of_path "EvaluationLogs/Ostovar" "loop" "xes.gz");
    by apply (bool_decide_unpack _).
Defined.

End HelpersExtras.

(** ** The multi-window task *)

Module MultiWindowFacts.
Import Aggregator Survival MultiWindow.

(** Assigning to a dict whose values are given by [f] on its keys. *)
Lemma cp_dict_set_fmap (f : Z → list Z) k l :
  cp_dict_set k (f k) ((λ k, (k, f k)) <$> l)
  = (λ k, (k, f k)) <$> (if decide (k ∈ l) then l else l ++ [k]).
Proof.
  induction l as [|a l IH].
  - by destruct (decide (k ∈ [])) as [?%elem_of_nil|].
  - rewrite fmap_cons. cbn [cp_dict_set].
    destruct (decide (a = k)) as [->|Hne].
    + by rewrite decide_True by left.
    + rewrite IH. destruct (decide (k ∈ l)) as [Hin|Hin].
      * by rewrite decide_True by by right.
      * rewrite decide_False; [done|].
        intros [?|?]%elem_of_cons; [congruence|done].
Qed.

(** The filled dict has one entry per distinct window size, with the
    detections for that size. *)
Lemma cp_em_all_window_sizes_entries f window_sizes :
  ∃ l, cp_em_all_window_sizes f window_sizes = (λ k, (k, f k)) <$> l
       ∧ NoDup l ∧ ∀ k, k ∈ l ↔ k ∈ window_sizes.
Proof.
  unfold cp_em_all_window_sizes.
  assert (∀ l0, NoDup l0 →
            ∃ l, foldl (λ d window_size,
                          cp_dict_set window_size (f window_size) d)
                       ((λ k, (k, f k)) <$> l0) window_sizes
                 = (λ k, (k, f k)) <$> l
                 ∧ NoDup l ∧ ∀ k, k ∈ l ↔ k ∈ l0 ∨ k ∈ window_sizes) as Hgen.
  { induction window_sizes as [|w ws IH]; intros l0 Hl0; simpl.
    - exists l0. split_and!; [done..|]. set_solver.
    - rewrite cp_dict_set_fmap.
      destruct (IH (if decide (w ∈ l0) then l0 else l0 ++ [w])) as (l & -> & Hl & Hk).
      { destruct (decide (w ∈ l0)); [done|].
        apply NoDup_app. split_and!; [done| |apply NoDup_singleton].
        intros x Hx ->%list_elem_of_singleton. done. }
      exists l. split_and!; [done..|]. intros k. rewrite Hk.
      destruct (decide (w ∈ l0)); set_solver. }
  destruct (Hgen [] (NoDup_nil_2)) as (l & Hl & Hnd & Hk).
  exists l. split_and!; [done..|]. intros k. rewrite Hk. set_solver.
Qed.

Lemma pairs_fmap (f : Z → list Z) l w c :
  (w, c) ∈ pairs ((λ k, (k, f k)) <$> l) ↔ w ∈ l ∧ c ∈ f w.
Proof.
  unfold pairs. rewrite list_elem_of_bind. split.
  - intros ([k v] & Hin & (k' & [= -> ->] & Hk)%list_elem_of_fmap).
    apply list_elem_of_fmap in Hin as (c' & [= <- <-] & Hc). done.
  - intros [Hw Hc]. exists (w, f w). split.
    + apply list_elem_of_fmap. by exists c.
    + apply list_elem_of_fmap. by exists w.
Qed.

End MultiWindowFacts.

Module MultiWindowExtras.
Import Aggregator Survival SurvivalFacts MultiWindow MultiWindowFacts.

(** The change points of the multi-window task depend only on the set of
    window sizes: their order in [window_sizes] and repeated sizes make no
    difference. *)
Theorem cp_em_depends_on_set_of_window_sizes
    (detect_change : Z → list Z) window_sizes window_sizes' alpha t :
  list_to_set window_sizes =@{gset Z} list_to_set window_sizes' →
  cp_em detect_change window_sizes alpha t
  = cp_em detect_change window_sizes' alpha t.
Proof.
  intros Hset. unfold cp_em.
  destruct (cp_em_all_window_sizes_entries detect_change window_sizes)
    as (l & -> & Hl & Hk).
  destruct (cp_em_all_window_sizes_entries detect_change window_sizes')
    as (l' & -> & Hl' & Hk').
  assert (l ≡ₚ l') as Hp.
  { apply NoDup_Permutation; [done..|]. intros k. rewrite Hk, Hk'.
    rewrite <- !(elem_of_list_to_set (C := gset Z)). by rewrite Hset. }
  rewrite !deduplicate_merge_loop, !agg_rows_merge_loop.
  rewrite (sorted_records_order_independent _ ((λ k, (k, detect_change k)) <$> l'));
    [done|].
  unfold pairs. by rewrite Hp.
Qed.

Lemma cp_em_depends_on_set_of_window_sizes_witness :
  cp_em (λ w, [w * 5; 530])%Z [100; 50; 100]%Z 1%Q 2
  = cp_em (λ w, [w * 5; 530])%Z [50; 100]%Z 1%Q 2.
Proof.
  apply cp_em_depends_on_set_of_window_sizes.
  by apply (bool_decide_unpack _).
Defined.

(** Every change point of the multi-window task was detected with one of
    the given window sizes: the merge moves no location. *)
Theorem cp_em_returns_detected_locations
    (detect_change : Z → list Z) window_sizes alpha (t : Z) c :
  c ∈ cp_em detect_change window_sizes alpha t →
  ∃ window_size, window_size ∈ window_sizes ∧ c ∈ detect_change window_size.
Proof.
  unfold cp_em.
  destruct (cp_em_all_window_sizes_entries detect_change window_sizes)
    as (l & -> & Hl & Hk).
  rewrite deduplicate_merge_loop, agg_rows_merge_loop.
  intros (r & -> & [_ Hr]%list_elem_of_filter)%list_elem_of_fmap.
  exists (window_size r). rewrite <- Hk. apply pairs_fmap.
  set (m := (λ k, (k, detect_change k)) <$> l) in *.
  assert ((window_size r, cp r) ∈ key <$> sort_by key_le (flatten_records m)
          ∧ ¬ ∃ q, q ∈ key <$> sort_by key_le (flatten_records m)
                   ∧ merge_target alpha (window_size r, cp r) q) as [Hin _].
  { apply survivors_keys; [apply sorted_records_StronglySorted|]. by exists r. }
  by rewrite keys_sorted_records in Hin.
Qed.

Lemma cp_em_returns_detected_locations_witness :
  ∃ window_size, window_size ∈ [100; 50]%Z
                 ∧ 530%Z ∈ (λ w, [w * 5; 530])%Z window_size.
Proof.
  apply (cp_em_returns_detected_locations _ _ 1%Q 2).
  by apply (bool_decide_unpack _).
Defined.

End MultiWindowExtras.

(** ** Test runs of the task builder *)

Module TestRunFacts.
Import TaskBuilder TaskBuilderFacts TaskBuilderMoreFacts.

(** The families of a test run are taken from those of the full run, and
    the two raise together. *)
Lemma family_arguments_test_run l :
  match family_arguments true l, family_arguments false l with
  | Some test, Some full => test ⊆ full
  | None, None => True
  | _, _ => False
  end.
Proof.
  induction l as [|[f [meta grid]] l IH]; [by intros ? ?%elem_of_nil|].
  rewrite !family_arguments_cons.
  destruct (permutations_dicts grid) as [perms|]; [|done]. csimpl.
  destruct (family_arguments true l) as [test|],
           (family_arguments false l) as [full|]; try done.
  csimpl. intros t [Ht|Ht]%elem_of_app; apply elem_of_app; [left|right; by apply IH].
  apply list_elem_of_fmap in Ht as (p & -> & Hp).
  apply list_elem_of_fmap. exists p. split; [done|].
  by apply (sublist_subseteq _ _ (sublist_take _ 1)).
Qed.

Lemma elem_of_imap_with_position (l : list Task) t :
  t ∈ imap with_position l ↔ ∃ i x, l !! i = Some x ∧ t = with_position i x.
Proof.
  rewrite list_elem_of_lookup. setoid_rewrite list_lookup_imap. split.
  - intros (i & Hi). destruct (l !! i) as [x|] eqn:Hx; [|done].
    injection Hi as <-. by exists i, x.
  - intros (i & x & Hx & ->). exists i. by rewrite Hx.
Qed.

Lemma with_position_delete i (t : Task) :
  (with_position i t).1 = t.1
  ∧ delete "position"%string (with_position i t).2 = delete "position"%string t.2.
Proof.
  split; [done|]. unfold with_position, dict_or. cbn [snd].
  by rewrite delete_union, delete_singleton_eq, (left_id_L ∅ (∪)).
Qed.

End TestRunFacts.

Module TestRunExtras.
Import TaskBuilder TaskBuilderFacts TaskBuilderMoreFacts TestRunFacts.

(** A test run raises exactly when the full run does, and otherwise each
    of its tasks is a task of the full run, up to the position given after
    the shuffle. *)
Theorem test_run_tasks_are_full_run_tasks shuffle shuffle' config logs :
  (∀ l, shuffle l ≡ₚ l) → (∀ l, shuffle' l ≡ₚ l) →
  match build_arguments_list shuffle' config logs true,
        build_arguments_list shuffle config logs false with
  | Some test, Some full =>
      ∀ t, t ∈ test →
        ∃ t', t' ∈ full ∧ t'.1 = t.1
              ∧ delete "position"%string t'.2 = delete "position"%string t.2
  | None, None => True
  | _, _ => False
  end.
Proof.
  intros Hs Hs'. unfold build_arguments_list.
  pose proof (family_arguments_test_run (enabled_args config)) as Hfam.
  destruct (family_arguments true _) as [test|],
           (family_arguments false _) as [full|]; try done.
  csimpl. intros t (i & x & Hx & ->)%elem_of_imap_with_position.
  apply list_elem_of_lookup_2 in Hx. rewrite Hs' in Hx.
  apply list_elem_of_bind in Hx as (t0 & Hx & Ht0).
  apply list_elem_of_bind in Hx as (m & ->%list_elem_of_singleton & Hm).
  apply list_elem_of_fmap in Hm as (log & -> & Hlog).
  apply (sublist_subseteq _ _ (sublist_take _ 1)) in Hlog.
  assert ((t0.1, dict_or t0.2 (meta_arg config log))
          ∈ shuffle (t ← full; meta_arg ← meta_arg config <$> logs;
                     [(t.1, dict_or t.2 meta_arg)])) as Hin.
  { rewrite Hs. apply list_elem_of_bind. exists t0. split; [|by apply Hfam].
    apply list_elem_of_bind. exists (meta_arg config log).
    split; [by apply list_elem_of_singleton|by apply list_elem_of_fmap_2]. }
  apply list_elem_of_lookup in Hin as (j & Hj).
  exists (with_position j (t0.1, dict_or t0.2 (meta_arg config log))).
  split; [apply elem_of_imap_with_position; by eexists _, _|].
  destruct (with_position_delete i (t0.1, dict_or t0.2 (meta_arg config log)))
    as [-> ->].
  by destruct (with_position_delete j (t0.1, dict_or t0.2 (meta_arg config log)))
    as [-> ->].
Qed.

Lemma test_run_tasks_are_full_run_tasks_witness :
  match build_arguments_list reverse example_config example_logs true,
        build_arguments_list id example_config example_logs false with
  | Some test, Some full =>
      ∀ t, t ∈ test →
        ∃ t', t' ∈ full ∧ t'.1 = t.1
              ∧ delete "position"%string t'.2 = delete "position"%string t.2
  | None, None => True
  | _, _ => False
  end.
Proof.
  apply test_run_tasks_are_full_run_tasks.
  - by intros l.
  - intros l. apply reverse_Permutation.
Defined.

End TestRunExtras.
